(** * casper: dependency-ordered, fault-isolating entity resolution

    A shallow embedding of [src/component.ts] (namespace [Component]:
    [dependencies], [all], [resolve]) and of [src/schema/index.ts]
    ([error], [clearErrors], [resolveEntities]), with the properties of
    the engine proved about it.

    Modelling conventions.
    - A JavaScript array is a [list]; [push] appends at the end and [pop]
      takes from the end.
    - A JavaScript object used as a dictionary is an association list of
      its own properties in insertion order; enumeration ([for .. in],
      [Object.entries]) lists array-index keys first, in ascending numeric
      order, then the other keys in insertion order.  [k in o] and
      [o[k] !== undefined] are taken as own-property tests, which they
      are for the keys that name no member of [Object.prototype]
      ([Domain.inherited]); [JS.toString] prints as JavaScript does the
      values of [Domain.printed].
    - A thrown exception is represented by the string [err.toString()]
      gives for it.  The values that have no [toString], [null] and
      [undefined], are thrown by the hooks of [Raw] only, where the
      [catch] of the resolver is modelled on them too.
    - The hooks of a component ([trigger], [getData], [process],
      [transform]) are functions of the context that return a value or
      throw; [transform] returns the parent entity as it leaves it.  A
      hook has no other effect. *)

From Stdlib Require Import List String Ascii ZArith NArith Bool Lia.
From Stdlib Require Import Permutation DecimalString.
Import ListNotations.

Local Open Scope string_scope.
Local Open Scope list_scope.

(* ================================================================== *)
(** ** JavaScript values and objects *)

Module JS.

(** An object's own properties, in insertion order. *)
Definition Obj (V : Type) : Type := list (string * V).

(** [any]: the values a record parsed from YAML can hold.  Numbers are
    the integral ones, which [ToString] prints as plain decimals. *)
#[warnings="-register-all"]
Inductive Value : Type :=
| VUndefined
| VNull
| VBool (b : bool)
| VNum (z : Z)
| VStr (s : string)
| VArr (items : list Value)
| VObj (fields : list (string * Value)).

Definition dquote : string := String (ascii_of_nat 34) EmptyString.
Definition squote : string := String (ascii_of_nat 39) EmptyString.
Definition newline : string := String (ascii_of_nat 10) EmptyString.

(** [String(v)], as a template literal and a property key apply it.
    This is what JavaScript prints for the values of [Domain.printed];
    for the others (a number beyond the safe integers, an object with a
    [toString] property of its own) JavaScript rounds the digits, uses
    the exponent form or throws. *)
Fixpoint toString (v : Value) : string :=
  match v with
  | VUndefined => "undefined"
  | VNull => "null"
  | VBool true => "true"
  | VBool false => "false"
  | VNum z => NilZero.string_of_int (Z.to_int z)
  | VStr s => s
  | VArr items =>
      (fix join (l : list Value) : string :=
         match l with
         | [] => EmptyString
         | x :: r =>
             let sx := match x with
                       | VUndefined | VNull => EmptyString
                       | _ => toString x
                       end in
             match r with
             | [] => sx
             | _ :: _ => (sx ++ "," ++ join r)%string
             end
         end) items
  | VObj _ => "[object Object]"
  end.

Section Objects.
Context {V : Type}.

(** [o[k]] among the own properties of [o]; [None] stands for
    [undefined].  For a key that names a member of [Object.prototype]
    ([Domain.inherited]) JavaScript finds the inherited member
    instead. *)
Fixpoint get (k : string) (o : Obj V) : option V :=
  match o with
  | [] => None
  | (k', v) :: r => if String.eqb k k' then Some v else get k r
  end.

(** [k in o], for a key that names no member of [Object.prototype]. *)
Definition has (k : string) (o : Obj V) : bool :=
  match get k o with Some _ => true | None => false end.

(** The object after the in-place mutation of the value held at [k]:
    a key that is no longer there is not created. *)
Fixpoint update (k : string) (v : V) (o : Obj V) : Obj V :=
  match o with
  | [] => []
  | (k', v') :: r =>
      if String.eqb k k' then (k', v) :: r else (k', v') :: update k v r
  end.

(** [o[k] = v]: an existing key keeps its place, a new one goes last. *)
Definition set (k : string) (v : V) (o : Obj V) : Obj V :=
  if has k o then update k v o else o ++ [(k, v)].

(** [delete o[k]]. *)
Definition delete (k : string) (o : Obj V) : Obj V :=
  filter (fun kv => negb (String.eqb k (fst kv))) o.

(** The numeric value of a key that is an array index: a canonical
    decimal numeral below 2^32 - 1. *)
Definition digit (a : ascii) : option N :=
  let n := N_of_ascii a in
  if ((48 <=? n) && (n <=? 57))%N then Some (n - 48)%N else None.

Fixpoint digits (acc : N) (s : string) : option N :=
  match s with
  | EmptyString => Some acc
  | String a r =>
      match digit a with
      | Some x => digits (10 * acc + x)%N r
      | None => None
      end
  end.

Definition array_index (s : string) : option N :=
  match s with
  | EmptyString => None
  | String a r =>
      if Ascii.eqb a "0"%char then
        match r with EmptyString => Some 0%N | _ => None end
      else
        match digits 0 s with
        | Some n => if (n <=? 4294967294)%N then Some n else None
        | None => None
        end
  end.

Definition is_index (kv : string * V) : bool :=
  match array_index (fst kv) with Some _ => true | None => false end.

Definition index_of (kv : string * V) : N :=
  match array_index (fst kv) with Some n => n | None => 0%N end.

Fixpoint insert_index (kv : string * V) (l : Obj V) : Obj V :=
  match l with
  | [] => [kv]
  | x :: r =>
      if (index_of kv <=? index_of x)%N then kv :: x :: r
      else x :: insert_index kv r
  end.

Definition sort_index (l : Obj V) : Obj V :=
  fold_right insert_index [] l.

(** [Object.entries(o)], also the order of [for (k in o)]. *)
Definition entries (o : Obj V) : list (string * V) :=
  sort_index (filter is_index o)
    ++ filter (fun kv => negb (is_index kv)) o.

Definition keys (o : Obj V) : list string := map fst (entries o).

End Objects.

(** Arrays of strings. *)

(** [a.indexOf(x)]: the first position of [x], or -1. *)
Fixpoint indexOf (a : list string) (x : string) : Z :=
  match a with
  | [] => (-1)%Z
  | y :: r =>
      if String.eqb y x then 0%Z
      else let i := indexOf r x in
           if (i <? 0)%Z then (-1)%Z else (i + 1)%Z
  end.

(** [a.includes(x)]. *)
Definition includes (a : list string) (x : string) : bool :=
  existsb (String.eqb x) a.

(** [a.splice(i, 1)]: the array without its element at [i]. *)
Fixpoint splice1 {A : Type} (i : nat) (a : list A) : list A :=
  match a, i with
  | [], _ => []
  | _ :: r, O => r
  | y :: r, S i' => y :: splice1 i' r
  end.

(** [a.pop()]: the last element and the array left, [None] when empty. *)
Definition pop {A : Type} (a : list A) : option (A * list A) :=
  match rev a with
  | [] => None
  | x :: r => Some (x, rev r)
  end.

(** [Array.from(new Set(a))]: first occurrences, in order. *)
Fixpoint uniq (seen a : list string) : list string :=
  match a with
  | [] => []
  | x :: r =>
      if includes seen x then uniq seen r else x :: uniq (seen ++ [x]) r
  end.

End JS.

(* ================================================================== *)
(** ** Components, [src/component.ts] *)

Definition EntityData : Type := JS.Obj JS.Value.
Definition EntityMap : Type := JS.Obj EntityData.
Definition Entity : Type := JS.Obj JS.Value.
Definition Manifest : Type := JS.Obj Entity.
Definition PassedMap : Type := JS.Obj (list string).
Definition ErrorMap : Type := JS.Obj (list string).

(** The completion of a call: a value, or a thrown exception. *)
Inductive Result (A : Type) : Type :=
| Ok (a : A)
| Throw (err : string).
Arguments Ok {A} a.
Arguments Throw {A} err.

(** The declarative fields of a component.  The context hands the hooks
    the components through these fields. *)
Record Descriptor : Type := {
  KEY : string;
  REQUIRES : option (list string);
  OPTIONAL : option (list string);
  SUPPRESS_TYPE : option bool;
  HOIST : option bool;
  SINK : option bool;
  WAIT_FOR : option (list string)
}.

(** [Component.Context]. *)
Module Context.

Record t : Type := {
  entities : EntityMap;
  manifest : Manifest;
  passed : PassedMap;
  parent : Entity;
  id : string;
  data : option EntityData;
  components : list Descriptor
}.

Definition with_passed (p : PassedMap) (ctx : t) : t :=
  {| entities := entities ctx; manifest := manifest ctx; passed := p;
     parent := parent ctx; id := id ctx; data := data ctx;
     components := components ctx |}.

Definition with_parent (e : Entity) (ctx : t) : t :=
  {| entities := entities ctx; manifest := manifest ctx;
     passed := passed ctx; parent := e; id := id ctx; data := data ctx;
     components := components ctx |}.

End Context.

Record Component : Type := {
  desc :> Descriptor;
  trigger : option (Context.t -> Result bool);
  getData : option (Context.t -> Result JS.Value);
  process : option (JS.Value -> Context.t -> Result JS.Value);
  transform : option (JS.Value -> Context.t -> Result Entity)
}.

(** Truthiness of an optional boolean flag. *)
Definition truthy (f : option bool) : bool :=
  match f with Some b => b | None => false end.

(** [a || []] for an optional array. *)
Definition or_empty (a : option (list string)) : list string :=
  match a with Some l => l | None => [] end.

Module Comp.

(** [Component.dependencies]; [registry] is the module's [list]. *)
Definition dependencies (registry : list Component) (c : Component)
  : list string :=
  let wait_for := or_empty (WAIT_FOR c) in
  let requires := or_empty (REQUIRES c) in
  let hoists :=
    if truthy (HOIST c) then []
    else map (fun c : Component => KEY c)
             (filter (fun c : Component => truthy (HOIST c)) registry) in
  let sinks :=
    if truthy (SINK c)
    then map (fun c : Component => KEY c)
             (filter (fun c : Component => negb (truthy (SINK c))) registry)
    else [] in
  JS.uniq [] (wait_for ++ requires ++ hoists ++ sinks).

(** An element of [_list].  [no_edges] and [out] hold the same objects
    as [_list]; an object enters them with an empty [dep], which no
    later [splice] changes, so the copies held here stay accurate. *)
Record Node : Type := { node : Component; dep : list string }.

(** The [for (var m of _list)] loop of [all], for the popped key. *)
Fixpoint release (key : string) (_list no_edges : list Node)
  : list Node * list Node :=
  match _list with
  | [] => ([], no_edges)
  | m :: rest =>
      let i := JS.indexOf (dep m) key in
      if (0 <=? i)%Z then
        let m' := {| node := node m;
                     dep := JS.splice1 (Z.to_nat i) (dep m) |} in
        let no_edges' :=
          if (List.length (dep m') =? 0)%nat then no_edges ++ [m']
          else no_edges in
        let (rest', ne) := release key rest no_edges' in
        (m' :: rest', ne)
      else
        let (rest', ne) := release key rest no_edges in
        (m :: rest', ne)
  end.

(** The [while (no_edges.length > 0)] loop.  [fuel] bounds the number
    of iterations; [None] is returned only when it runs out. *)
Fixpoint all_loop (fuel : nat) (_list no_edges out : list Node)
  : option (list Node) :=
  match JS.pop no_edges with
  | None => Some out
  | Some (n, no_edges1) =>
      match fuel with
      | O => None
      | S fuel' =>
          let out1 := out ++ [n] in
          let (_list2, no_edges2) :=
            release (KEY (node n)) _list no_edges1 in
          all_loop fuel' _list2 no_edges2 out1
      end
  end.

Definition initial (registry : list Component) : list Node :=
  map (fun c => {| node := c; dep := dependencies registry c |}) registry.

Definition no_dep (c : Node) : bool := (List.length (dep c) =? 0)%nat.

(** [Component.all].  Every pass of the loop emits one component, so
    [length registry] passes are enough
    ([all_total]). *)
Definition all (registry : list Component) : option (list Component) :=
  let _list := initial registry in
  let no_edges := filter no_dep _list in
  match all_loop (List.length registry) _list no_edges [] with
  | Some out => Some (map node out)
  | None => None
  end.

(** *** [Component.resolve] *)

(** A computation over the context it mutates, which returns or throws. *)
Definition M (A : Type) : Type := Context.t -> Context.t * Result A.

Definition ret {A : Type} (a : A) : M A := fun ctx => (ctx, Ok a).

Definition bind {A B : Type} (m : M A) (f : A -> M B) : M B :=
  fun ctx =>
    match m ctx with
    | (ctx', Ok a) => f a ctx'
    | (ctx', Throw e) => (ctx', Throw e)
    end.

Notation "x <- m ;; k" := (bind m (fun x => k))
  (at level 61, m at next level, right associativity).
Notation "m ;; k" := (bind m (fun _ => k))
  (at level 61, right associativity).

(** The call of a hook on the context as it is now. *)
Definition call {A : Type} (hook : Context.t -> Result A) : M A :=
  fun ctx => (ctx, hook ctx).

(** The text of the [TypeError] a property access on [undefined] throws. *)
Definition cannot_read (prop : string) : string :=
  "TypeError: Cannot read properties of undefined (reading "
    ++ JS.squote ++ prop ++ JS.squote ++ ")".

Definition cannot_search (key : string) : string :=
  "TypeError: Cannot use " ++ JS.squote ++ "in" ++ JS.squote
    ++ " operator to search for " ++ JS.squote ++ key ++ JS.squote
    ++ " in undefined".

(** The defaults of the four hooks.  [c.KEY in _ctx.data] and
    [_ctx.data[c.KEY]] are read off the own properties of the record:
    what they are when [c.KEY] names no member of [Object.prototype]. *)
Definition default_trigger (c : Component) : Context.t -> Result bool :=
  fun _ctx =>
    match Context.data _ctx with
    | Some o => Ok (JS.has (KEY c) o)
    | None => Throw (cannot_search (KEY c))
    end.

Definition default_getData (c : Component) : Context.t -> Result JS.Value :=
  fun _ctx =>
    match Context.data _ctx with
    | Some o =>
        Ok (match JS.get (KEY c) o with Some v => v | None => JS.VUndefined end)
    | None => Throw (cannot_read (KEY c))
    end.

Definition default_process : JS.Value -> Context.t -> Result JS.Value :=
  fun data _ => Ok data.

Definition default_transform (c : Component)
  : JS.Value -> Context.t -> Result Entity :=
  fun o _ctx => Ok (JS.set (KEY c) o (Context.parent _ctx)).

(** [hook || dflt]. *)
Definition or_default {A : Type} (hook : option A) (dflt : A) : A :=
  match hook with Some f => f | None => dflt end.

(** [ctx.passed[c.KEY].push(ctx.id)]. *)
Definition mark_passed (c : Component) : M unit :=
  fun ctx =>
    match JS.get (KEY c) (Context.passed ctx) with
    | Some ids =>
        (Context.with_passed
           (JS.update (KEY c) (ids ++ [Context.id ctx]) (Context.passed ctx))
           ctx, Ok tt)
    | None => (ctx, Throw (cannot_read "push"))
    end.

(** What stops the [forEach] over [REQUIRES]: a key whose passed-set
    lacks the id, or a key with no passed-set at all. *)
Inductive Unmet : Type :=
| Missing (r : string)
| NoPassedSet (r : string).

Fixpoint unmet (requires : list string) (passed : PassedMap) (id : string)
  : option Unmet :=
  match requires with
  | [] => None
  | r :: rest =>
      match JS.get r passed with
      | None => Some (NoPassedSet r)
      | Some ids =>
          if JS.includes ids id then unmet rest passed id
          else Some (Missing r)
      end
  end.

Definition requirement_error (c : Component) (id : string) (u : Unmet)
  : string :=
  match u with
  | Missing r =>
      id ++ " does not contain " ++ JS.dquote ++ r ++ JS.dquote
        ++ ", which is a requirement for " ++ JS.dquote ++ KEY c ++ JS.dquote
  | NoPassedSet _ => cannot_read "includes"
  end.

(** [c.REQUIRES?.forEach(...)]. *)
Definition check_requires (c : Component) : M unit :=
  fun ctx =>
    match REQUIRES c with
    | None => (ctx, Ok tt)
    | Some requires =>
        match unmet requires (Context.passed ctx) (Context.id ctx) with
        | None => (ctx, Ok tt)
        | Some u => (ctx, Throw (requirement_error c (Context.id ctx) u))
        end
    end.

Definition is_undefined (v : JS.Value) : bool :=
  match v with JS.VUndefined => true | _ => false end.

(** The call of [transform], which leaves its result in [ctx.parent]. *)
Definition apply_transform
  (transform : JS.Value -> Context.t -> Result Entity) (o : JS.Value)
  : M unit :=
  fun ctx =>
    match transform o ctx with
    | Ok parent' => (Context.with_parent parent' ctx, Ok tt)
    | Throw e => (ctx, Throw e)
    end.

Definition resolve (c : Component) : M unit :=
  let trigger := or_default (trigger c) (default_trigger c) in
  let getData := or_default (getData c) (default_getData c) in
  let process := or_default (process c) default_process in
  let transform := or_default (transform c) (default_transform c) in
  fired <- call trigger ;;
  if fired then
    mark_passed c ;;
    check_requires c ;;
    cData <- call getData ;;
    out <- call (process cData) ;;
    if negb (is_undefined out) then apply_transform transform out
    else ret tt
  else ret tt.

End Comp.

(* ================================================================== *)
(** ** The resolver, [src/schema/index.ts] *)

Module Schema.

(** The argument of [error]: one error, or an array of them.  An [Error]
    instance is given by its [toString()], which [error] stores. *)
Inductive ErrArg : Type :=
| One (e : string)
| Many (es : list string).

(** [error(key, err)], on the module's [errors], for a [key] that names
    no member of [Object.prototype]: for one that does, [errors[key]] is
    the inherited member, no list is made and [concat] is not there to
    call. *)
Definition error (key : string) (err : ErrArg) (errors : ErrorMap)
  : ErrorMap :=
  let errors1 := if JS.has key errors then errors else JS.set key [] errors in
  let err := match err with One e => [e] | Many es => es end in
  JS.set key (or_empty (JS.get key errors1) ++ err) errors1.

Definition clearErrors : ErrorMap := [].

(** The local variables [d], [out] and [passed] of [resolveEntities]. *)
Record Locals : Type := {
  d : EntityMap;
  out : Manifest;
  passed : PassedMap
}.

(** One call of [Component.resolve] by the resolver: the component, the
    entity id, what the call threw if it threw, and the local variables
    as the loop body left them. *)
Record Event : Type := {
  ev_comp : Component;
  ev_id : string;
  ev_thrown : option string;
  ev_after : Locals
}.

(** The state of a run: the locals, the module's [errors], and the calls
    of [Component.resolve] made so far.  [visited] is a ghost: the code
    never reads it. *)
Record Run : Type := {
  locals :> Locals;
  errors : ErrorMap;
  visited : list Event
}.

(** [e.f], for a field of a raw record. *)
Definition field (f : string) (e : EntityData) : JS.Value :=
  match JS.get f e with Some v => v | None => JS.VUndefined end.

Definition duplicate_id (e first : EntityData) : string :=
  "Duplicate id " ++ JS.toString (field "id" e) ++ JS.newline
    ++ JS.toString (field "name" e) ++ JS.newline
    ++ JS.toString (field "name" first).

(** The body of the first loop, over the records [ent], for a record
    whose id names no member of [Object.prototype] (for one that does,
    [e.id in d] holds of the first such record already). *)
Definition index_record (acc : EntityMap * ErrorMap) (e : EntityData)
  : EntityMap * ErrorMap :=
  let (d, errors) := acc in
  let id := JS.toString (field "id" e) in
  match JS.get id d with
  | Some first => (d, error id (One (duplicate_id e first)) errors)
  | None => (JS.set id e d, errors)
  end.

(** The second loop: an empty entity for every key of [d]. *)
Definition seed (d : EntityMap) : Manifest :=
  fold_left (fun out key => JS.set key [] out) (JS.keys d) [].

Definition context (components : list Component) (st : Locals)
  (k : string) (v : Entity) : Context.t :=
  {| Context.id := k;
     Context.entities := d st;
     Context.manifest := out st;
     Context.passed := passed st;
     Context.parent := v;
     Context.data := JS.get k (d st);
     Context.components := map desc components |}.

(** [i = ids.indexOf(id); if (i > -1) ids.splice(i, 1)]. *)
Definition remove_id (id : string) (ids : list string) : list string :=
  let i := JS.indexOf ids id in
  if (-1 <? i)%Z then JS.splice1 (Z.to_nat i) ids else ids.

(** The body of the loop over [Object.entries(out)]: the [try] and its
    [catch].  [v] is the entity object held at [out[k]]
    ([Runs.pass_current]); what [resolve] did to it shows there.  The
    value caught is one that has a [toString], [err] being its result;
    [Raw.visit] is the loop body for the values that have none. *)
Definition visit (components : list Component) (comp : Component)
  (st : Run) (kv : string * Entity) : Run :=
  let (k, v) := kv in
  let ctx := context components st k v in
  match Comp.resolve comp ctx with
  | (ctx', Ok _) =>
      let after :=
        {| d := d st;
           out := JS.update k (Context.parent ctx') (out st);
           passed := Context.passed ctx' |} in
      {| locals := after;
         errors := errors st;
         visited := visited st ++
           [{| ev_comp := comp; ev_id := k; ev_thrown := None;
               ev_after := after |}] |}
  | (ctx', Throw err) =>
      let id := Context.id ctx' in
      let after :=
        {| d := JS.delete id (d st);
           out := JS.delete id (out st);
           passed :=
             map (fun ks => (fst ks, remove_id id (snd ks)))
                 (Context.passed ctx') |} in
      {| locals := after;
         errors := error id (One err) (errors st);
         visited := visited st ++
           [{| ev_comp := comp; ev_id := k; ev_thrown := Some err;
               ev_after := after |}] |}
  end.

(** The body of the loop over the components. *)
Definition pass (components : list Component) (st : Run) (comp : Component)
  : Run :=
  let st1 :=
    {| locals := {| d := d st; out := out st;
                    passed := JS.set (KEY comp) [] (passed st) |};
       errors := errors st;
       visited := visited st |} in
  fold_left (visit components comp) (JS.entries (out st1)) st1.

(** [resolveEntities(ent)], with the registry [Component.list] and the
    module's [errors] as they are when it is called; the state it ends
    in.  [None] only if [Component.all] ran out of fuel, which it does
    not ([Comp.all] is total). *)
Definition resolveEntities_run (registry : list Component)
  (errors0 : ErrorMap) (ent : list EntityData) : option Run :=
  let (d0, errors1) := fold_left index_record ent ([], errors0) in
  let out0 := seed d0 in
  match Comp.all registry with
  | Some components =>
      Some (fold_left (pass components) components
              {| locals := {| d := d0; out := out0; passed := [] |};
                 errors := errors1;
                 visited := [] |})
  | None => None
  end.

(** What a caller of [resolveEntities] gets: the manifest it returns and
    the module's [errors] after the call. *)
Definition resolveEntities (registry : list Component)
  (errors0 : ErrorMap) (ent : list EntityData)
  : option (Manifest * ErrorMap) :=
  match resolveEntities_run registry errors0 ent with
  | Some st => Some (out st, errors st)
  | None => None
  end.

End Schema.

(* ================================================================== *)
(** ** The keys and values on which objects act as dictionaries *)

Module Domain.
Import JS.

(** The properties of [Object.prototype], which every object literal
    inherits: for such a name [k in o] holds and [o[k]] is not
    [undefined], whatever the own properties of [o]. *)
Definition prototype_members : list string :=
  ["constructor"; "__defineGetter__"; "__defineSetter__"; "hasOwnProperty";
   "__lookupGetter__"; "__lookupSetter__"; "isPrototypeOf";
   "propertyIsEnumerable"; "toString"; "valueOf"; "__proto__";
   "toLocaleString"].

Definition inherited (k : string) : bool :=
  existsb (String.eqb k) prototype_members.

(** The values [JS.toString] prints as JavaScript does: the numbers are
    safe integers, which print as plain decimals (beyond them digits are
    rounded, and from 1e21 on the exponent form is used), and no object
    has a property [toString] of its own, which parsed data cannot call. *)
Fixpoint printed (v : Value) : bool :=
  match v with
  | VNum z => (Z.abs z <=? 9007199254740991)%Z
  | VArr items => forallb printed items
  | VObj fields =>
      negb (existsb (fun kv => String.eqb (fst kv) "toString") fields)
  | _ => true
  end.

(** A raw record whose [id] and [name] print, and whose id names no
    member of [Object.prototype]. *)
Definition ordinary (e : EntityData) : bool :=
  printed (Schema.field "id" e) && printed (Schema.field "name" e)
  && negb (inherited (toString (Schema.field "id" e))).

End Domain.

(* ================================================================== *)
(** ** Hooks that throw any value *)

Module Raw.
Import Schema.

(** The components of the rest of the development, whose hooks throw
    values that have a [toString]. *)
Definition Shown : Type := Component.

(** A thrown value, as the [catch] of [resolveEntities] meets it: one
    for which [err.toString()] returns a text (a string, an [Error], a
    number, ...), or [null] or [undefined], which have no properties. *)
Inductive Thrown : Type :=
| Text (shown : string)
| Nullish (what : string).

Inductive Completion (A : Type) : Type :=
| Returns (a : A)
| Throws (t : Thrown).
Arguments Returns {A} a.
Arguments Throws {A} t.

Record Component : Type := Make {
  desc :> Descriptor;
  trigger : option (Context.t -> Completion bool);
  getData : option (Context.t -> Completion JS.Value);
  process : option (JS.Value -> Context.t -> Completion JS.Value);
  transform : option (JS.Value -> Context.t -> Completion Entity)
}.

(** [String(err)], by which the thrown value is told in the development
    that has texts only. *)
Definition told (t : Thrown) : string :=
  match t with Text shown => shown | Nullish what => what end.

Definition erase_completion {A : Type} (r : Completion A) : Result A :=
  match r with Returns a => Ok a | Throws t => Throw (told t) end.

Definition erase (c : Component) : Shown :=
  Build_Component (desc c)
    (option_map (fun h ctx => erase_completion (h ctx)) (trigger c))
    (option_map (fun h ctx => erase_completion (h ctx)) (getData c))
    (option_map (fun h v ctx => erase_completion (h v ctx)) (process c))
    (option_map (fun h v ctx => erase_completion (h v ctx)) (transform c)).

(** What the engine itself throws has a text. *)
Definition lift {A : Type} (r : Result A) : Completion A :=
  match r with Ok a => Returns a | Throw e => Throws (Text e) end.

(** *** [Component.resolve] *)

Definition M (A : Type) : Type := Context.t -> Context.t * Completion A.

Definition ret {A : Type} (a : A) : M A := fun ctx => (ctx, Returns a).

Definition bind {A B : Type} (m : M A) (f : A -> M B) : M B :=
  fun ctx =>
    match m ctx with
    | (ctx', Returns a) => f a ctx'
    | (ctx', Throws t) => (ctx', Throws t)
    end.

Notation "x <- m ;; k" := (bind m (fun x => k))
  (at level 61, m at next level, right associativity).
Notation "m ;; k" := (bind m (fun _ => k))
  (at level 61, right associativity).

Definition call {A : Type} (hook : Context.t -> Completion A) : M A :=
  fun ctx => (ctx, hook ctx).

(** A step of [Component.resolve] in which no hook is called. *)
Definition step {A : Type} (m : Comp.M A) : M A :=
  fun ctx => let (ctx', r) := m ctx in (ctx', lift r).

Definition apply_transform
  (transform : JS.Value -> Context.t -> Completion Entity) (o : JS.Value)
  : M unit :=
  fun ctx =>
    match transform o ctx with
    | Returns parent' => (Context.with_parent parent' ctx, Returns tt)
    | Throws t => (ctx, Throws t)
    end.

Definition resolve (c : Component) : M unit :=
  let trigger :=
    Comp.or_default (trigger c)
      (fun _ctx => lift (Comp.default_trigger (erase c) _ctx)) in
  let getData :=
    Comp.or_default (getData c)
      (fun _ctx => lift (Comp.default_getData (erase c) _ctx)) in
  let process :=
    Comp.or_default (process c)
      (fun data _ctx => lift (Comp.default_process data _ctx)) in
  let transform :=
    Comp.or_default (transform c)
      (fun o _ctx => lift (Comp.default_transform (erase c) o _ctx)) in
  fired <- call trigger ;;
  if fired then
    step (Comp.mark_passed (erase c)) ;;
    step (Comp.check_requires (erase c)) ;;
    cData <- call getData ;;
    out <- call (process cData) ;;
    if negb (Comp.is_undefined out) then apply_transform transform out
    else ret tt
  else ret tt.

(** *** [resolveEntities] *)

(** How far [resolveEntities] has come: it goes on or has returned in
    the state [st]; or an exception has left it, and the state was [st]
    then. *)
Inductive Outcome : Type :=
| Ran (st : Run)
| Escaped (st : Run) (err : string).

(** The text of the [TypeError] of a property access on [what]. *)
Definition cannot_read_of (what prop : string) : string :=
  "TypeError: Cannot read properties of " ++ what ++ " (reading "
    ++ JS.squote ++ prop ++ JS.squote ++ ")".

(** The body of the loop over [Object.entries(out)]: the [try] and its
    [catch], whose first step [err.toString()] throws in turn when the
    value caught is [null] or [undefined]. *)
Definition visit (components : list Component) (comp : Component)
  (st : Run) (kv : string * Entity) : Outcome :=
  let (k, v) := kv in
  let ctx := context (map erase components) st k v in
  match resolve comp ctx with
  | (ctx', Returns _) =>
      let after :=
        {| d := d st;
           out := JS.update k (Context.parent ctx') (out st);
           passed := Context.passed ctx' |} in
      Ran {| locals := after;
             errors := errors st;
             visited := visited st ++
               [{| ev_comp := erase comp; ev_id := k;
                   ev_thrown := None; ev_after := after |}] |}
  | (ctx', Throws (Text err)) =>
      let id := Context.id ctx' in
      let after :=
        {| d := JS.delete id (d st);
           out := JS.delete id (out st);
           passed :=
             map (fun ks => (fst ks, remove_id id (snd ks)))
                 (Context.passed ctx') |} in
      Ran {| locals := after;
             errors := error id (One err) (errors st);
             visited := visited st ++
               [{| ev_comp := erase comp; ev_id := k;
                   ev_thrown := Some err; ev_after := after |}] |}
  | (ctx', Throws (Nullish what)) =>
      Escaped
        {| locals :=
             {| d := d st;
                out := JS.update k (Context.parent ctx') (out st);
                passed := Context.passed ctx' |};
           errors := errors st;
           visited := visited st |}
        (cannot_read_of what "toString")
  end.

(** The rest of a loop, which an exception that has escaped skips. *)
Definition and_then (o : Outcome) (body : Run -> Outcome) : Outcome :=
  match o with
  | Ran st => body st
  | Escaped st err => Escaped st err
  end.

(** The body of the loop over the components. *)
Definition pass (components : list Component) (st : Run)
  (comp : Component) : Outcome :=
  let st1 :=
    {| locals := {| d := d st; out := out st;
                    passed := JS.set (KEY comp) [] (passed st) |};
       errors := errors st;
       visited := visited st |} in
  fold_left (fun o kv => and_then o (fun s => visit components comp s kv))
    (JS.entries (out st1)) (Ran st1).

(** [resolveEntities(ent)], for [components] the array that
    [Component.all()] returns. *)
Definition resolveEntities_run (components : list Component)
  (errors0 : ErrorMap) (ent : list EntityData) : Outcome :=
  let (d0, errors1) := fold_left index_record ent ([], errors0) in
  let out0 := seed d0 in
  fold_left (fun o comp => and_then o (fun s => pass components s comp))
    components
    (Ran {| locals := {| d := d0; out := out0; passed := [] |};
            errors := errors1;
            visited := [] |}).

End Raw.

(* ================================================================== *)
(** ** The registry and the report of the errors *)

Module Registry.

(** [Component.register].  A component is an object: [list.includes(c)]
    compares references, which [same] decides.  [list] is the module's
    array of references; the registry the other functions read holds the
    components these refer to, in the same order. *)
Definition register {Ref : Type} (same : Ref -> Ref -> bool)
  (list : Datatypes.list Ref) (c : Ref) : Datatypes.list Ref :=
  if negb (existsb (same c) list) then list ++ [c] else list.

End Registry.

Module Reporting.

(** [Object.values(errors).flat().length]. *)
Definition errorCount (errors : ErrorMap) : nat :=
  List.length (List.concat (map snd (JS.entries errors))).

(** What [reportErrors] does to the outside: a line on the diagnostic
    stream, or a file written. *)
Inductive Output : Type :=
| ConsoleError (text : string)
| WriteFile (path content : string).

(** [reportErrors], on the module's [errors].  [dump] is [yaml.dump],
    [errorLogs] is [Config.errorLogs], and [writeFileSync path content]
    is what the attempt to write the file comes to: it returns, or throws
    the error that [console.error] then prints. *)
Definition reportErrors (dump : ErrorMap -> string) (errorLogs : string)
  (writeFileSync : string -> string -> Result unit) (errors : ErrorMap)
  : list Output :=
  let count := errorCount errors in
  if (0 <? count)%nat then
    let prettyErrors := dump errors in
    (if String.eqb errorLogs "stderr" then
       [ConsoleError ("======ERRORS======" ++ JS.newline ++ prettyErrors
                        ++ "==================")]
     else
       match writeFileSync errorLogs prettyErrors with
       | Ok _ => [WriteFile errorLogs prettyErrors]
       | Throw err => [ConsoleError err]
       end)
    ++ [ConsoleError
          ("Error count: " ++ NilZero.string_of_uint (Nat.to_uint count))]
  else [].

End Reporting.

(* ================================================================== *)
(** ** Facts about arrays and objects *)

Module JSFacts.
Import JS.

(** The array without the first occurrence of [x]: what [indexOf]
    followed by [splice] leaves. *)
Fixpoint remove_first (x : string) (a : list string) : list string :=
  match a with
  | [] => []
  | y :: r => if String.eqb y x then r else y :: remove_first x r
  end.

Lemma indexOf_lower (a : list string) (x : string) :
  (-1 <= indexOf a x)%Z.
Proof.
  induction a as [|y r IH]; simpl; [lia|].
  destruct (String.eqb y x); [lia|].
  destruct (Z.ltb_spec (indexOf r x) 0); lia.
Qed.

Lemma indexOf_found (a : list string) (x : string) :
  (0 <= indexOf a x)%Z <-> In x a.
Proof.
  induction a as [|y r IH]; simpl.
  - split; [lia | tauto].
  - destruct (String.eqb_spec y x) as [->|Hne].
    + split; [auto | lia].
    + destruct (Z.ltb_spec (indexOf r x) 0) as [Hlt|Hge].
      * split; [lia|]. intros [H|H]; [congruence|]. apply IH in H. lia.
      * split; [intros _; right; apply IH; lia | lia].
Qed.

Lemma splice1_indexOf (a : list string) (x : string) :
  (0 <= indexOf a x)%Z ->
  splice1 (Z.to_nat (indexOf a x)) a = remove_first x a.
Proof.
  induction a as [|y r IH]; simpl; [lia|].
  destruct (String.eqb y x); [reflexivity|].
  destruct (Z.ltb_spec (indexOf r x) 0) as [Hlt|Hge]; [lia|]. intros _.
  replace (Z.to_nat (indexOf r x + 1)) with (S (Z.to_nat (indexOf r x)))
    by lia.
  simpl. now rewrite IH by lia.
Qed.

Lemma remove_first_absent (a : list string) (x : string) :
  ~ In x a -> remove_first x a = a.
Proof.
  induction a as [|y r IH]; simpl; [reflexivity|]. intros H.
  destruct (String.eqb_spec y x) as [->|Hne]; [tauto|].
  rewrite IH; tauto.
Qed.

Lemma remove_first_incl (a : list string) (x y : string) :
  In y (remove_first x a) -> In y a.
Proof.
  induction a as [|z r IH]; simpl; [tauto|].
  destruct (String.eqb z x); simpl; tauto.
Qed.

Lemma remove_first_keeps (a : list string) (x y : string) :
  In y a -> y <> x -> In y (remove_first x a).
Proof.
  induction a as [|z r IH]; simpl; [tauto|]. intros [->|H] Hne.
  - destruct (String.eqb_spec y x); [contradiction | now left].
  - destruct (String.eqb z x); [assumption | right; auto].
Qed.

Lemma remove_first_NoDup (a : list string) (x : string) :
  NoDup a -> NoDup (remove_first x a) /\ ~ In x (remove_first x a).
Proof.
  induction 1 as [|z r Hz Hr IH]; simpl; [split; [constructor | tauto]|].
  destruct (String.eqb_spec z x) as [->|Hne]; [tauto|].
  destruct IH as [IH1 IH2]. split.
  - constructor; [|assumption]. intros H. now apply remove_first_incl in H.
  - simpl. tauto.
Qed.

Lemma includes_In (a : list string) (x : string) :
  includes a x = true <-> In x a.
Proof.
  unfold includes. rewrite existsb_exists. split.
  - intros (y & Hy & E). apply String.eqb_eq in E. now subst.
  - intros H. exists x. split; [assumption | apply String.eqb_refl].
Qed.

Lemma uniq_In (a seen : list string) (x : string) :
  In x (uniq seen a) <-> In x a /\ ~ In x seen.
Proof.
  revert seen. induction a as [|y r IH]; intros seen; simpl; [tauto|].
  destruct (includes seen y) eqn:E.
  - apply includes_In in E. rewrite IH. split.
    + tauto.
    + intros [[->|H] Hs]; tauto.
  - assert (Hy : ~ In y seen).
    { intros H. apply includes_In in H. congruence. }
    simpl. rewrite IH, in_app_iff. simpl. split.
    + intros [<-|[H1 H2]]; tauto.
    + intros [[->|H] Hs]; [tauto|].
      destruct (string_dec y x); tauto.
Qed.

Lemma uniq_NoDup (a seen : list string) : NoDup (uniq seen a).
Proof.
  revert seen. induction a as [|y r IH]; intros seen; simpl; [constructor|].
  destruct (includes seen y); [apply IH|].
  constructor; [|apply IH]. rewrite uniq_In, in_app_iff. simpl. tauto.
Qed.

Lemma pop_snoc {A : Type} (a : list A) (x : A) : pop (a ++ [x]) = Some (x, a).
Proof. unfold pop. rewrite rev_app_distr. simpl. now rewrite rev_involutive. Qed.

Lemma pop_inv {A : Type} (a : list A) :
  match pop a with
  | None => a = []
  | Some (x, r) => a = r ++ [x]
  end.
Proof.
  destruct a as [|y a'] using rev_ind; [reflexivity|].
  now rewrite pop_snoc.
Qed.

End JSFacts.

(* ================================================================== *)
(** ** The order computed by [Component.all] *)

Module Order.
Import JS JSFacts Comp.

Definition key_of (n : Node) : string := KEY (node n).

(** One pass of the [for (var m of _list)] loop on one element. *)
Definition spliced (key : string) (m : Node) : Node :=
  {| node := node m; dep := remove_first key (dep m) |}.

(** The elements the pass pushes on [no_edges]. *)
Definition freed (key : string) (ms : list Node) : list Node :=
  flat_map
    (fun m => if negb (no_dep m) && no_dep (spliced key m)
              then [spliced key m] else [])
    ms.

Lemma spliced_no_dep (key : string) (m : Node) :
  no_dep m = true -> spliced key m = m.
Proof.
  destruct m as [c [|x r]]; [reflexivity | discriminate].
Qed.

Lemma spliced_absent (key : string) (m : Node) :
  ~ In key (dep m) -> spliced key m = m.
Proof.
  intros H. unfold spliced. rewrite remove_first_absent by assumption.
  now destruct m.
Qed.

Lemma release_spec (key : string) (ms ne : list Node) :
  release key ms ne = (map (spliced key) ms, ne ++ freed key ms).
Proof.
  revert ne. induction ms as [|m ms IH]; intros ne; simpl.
  - now rewrite app_nil_r.
  - destruct (Z.leb_spec 0 (indexOf (dep m) key)) as [Hge|Hlt].
    + rewrite splice1_indexOf by assumption.
      fold (spliced key m). rewrite IH.
      assert (Hne : no_dep m = false).
      { apply indexOf_found in Hge. destruct m as [c [|x r]]; [easy|reflexivity]. }
      rewrite Hne. unfold no_dep. simpl.
      destruct (List.length (remove_first key (dep m)) =? 0)%nat.
      * now rewrite <- app_assoc.
      * reflexivity.
    + rewrite IH.
      assert (Hno : ~ In key (dep m)).
      { intros H. apply indexOf_found in H. lia. }
      rewrite (spliced_absent key m Hno).
      destruct (no_dep m); reflexivity.
Qed.

(** Every component of [out] comes after components that carry the keys
    it waited for; [seen] are the keys emitted earlier. *)
Fixpoint ordered (deps : Component -> list string) (seen : list string)
  (out : list Node) : Prop :=
  match out with
  | [] => True
  | o :: r =>
      (forall k, In k (deps (node o)) -> In k seen)
      /\ ordered deps (key_of o :: seen) r
  end.

Lemma ordered_weaken deps (seen seen' : list string) (out : list Node) :
  incl seen seen' -> ordered deps seen out -> ordered deps seen' out.
Proof.
  revert seen seen'. induction out as [|o r IH]; simpl; [tauto|].
  intros seen seen' Hi [H1 H2]. split; [auto|].
  apply (IH (key_of o :: seen)); [|assumption].
  intros x [<-|Hx]; [now left | right; auto].
Qed.

Lemma ordered_snoc deps (seen : list string) (out : list Node) (n : Node) :
  ordered deps seen out ->
  (forall k, In k (deps (node n)) -> In k (seen ++ map key_of out)) ->
  ordered deps seen (out ++ [n]).
Proof.
  revert seen. induction out as [|o r IH]; simpl; intros seen Ho Hn.
  - split; [|exact I]. intros k Hk. specialize (Hn k Hk).
    now rewrite app_nil_r in Hn.
  - destruct Ho as [H1 H2]. split; [assumption|].
    apply IH; [assumption|]. intros k Hk. specialize (Hn k Hk).
    apply in_app_or in Hn. simpl in Hn. apply in_or_app. simpl. tauto.
Qed.

Lemma ordered_nth deps (out : list Node) :
  forall seen j o k,
    ordered deps seen out ->
    nth_error out j = Some o ->
    In k (deps (node o)) ->
    In k seen \/ exists i a, i < j /\ nth_error out i = Some a /\ key_of a = k.
Proof.
  induction out as [|x r IH]; intros seen j o k Ho Hj Hk.
  - destruct j; discriminate.
  - destruct Ho as [H1 H2]. destruct j as [|j]; simpl in Hj.
    + injection Hj as ->. left. auto.
    + destruct (IH _ _ _ _ H2 Hj Hk) as [[<-|Hs]|(i & a & Hi & Ha & Hka)].
      * right. exists 0, x. split; [lia|]. split; reflexivity.
      * now left.
      * right. exists (S i), a. split; [lia|]. split; assumption.
Qed.

Lemma ordered_avoids deps (S : string -> Prop) (out : list Node) :
  (forall o, In o out -> S (key_of o) ->
             exists k, In k (deps (node o)) /\ S k) ->
  forall seen, (forall k, In k seen -> ~ S k) ->
    ordered deps seen out ->
    forall o, In o out -> ~ S (key_of o).
Proof.
  induction out as [|x r IH]; intros Hstuck seen Hseen Ho o Hin; [easy|].
  destruct Ho as [H1 H2].
  assert (Hx : ~ S (key_of x)).
  { intros HS. destruct (Hstuck x (or_introl eq_refl) HS) as (k & Hk & HSk).
    exact (Hseen k (H1 k Hk) HSk). }
  destruct Hin as [<-|Hin]; [assumption|].
  apply (IH (fun o Ho => Hstuck o (or_intror Ho)) (key_of x :: seen));
    [|assumption|assumption].
  intros k [<-|Hk]; auto.
Qed.

Lemma filter_spliced (key : string) (ms : list Node) :
  Permutation (filter no_dep (map (spliced key) ms))
              (filter no_dep ms ++ freed key ms).
Proof.
  induction ms as [|m ms IH]; simpl; [constructor|].
  destruct (no_dep m) eqn:Em; simpl.
  - rewrite (spliced_no_dep key m Em), Em. now constructor.
  - destruct (no_dep (spliced key m)); simpl.
    + now apply Permutation_cons_app.
    + assumption.
Qed.

Lemma NoDup_map_filter {K E : Type} (key : E -> K) (keep : E -> bool) :
  forall es : list E,
    NoDup (map key es) -> NoDup (map key (filter keep es)).
Proof.
  intros es. induction es as [|x es IH]; simpl; [auto|]. intros H.
  inversion H as [|? ? Hx Hl]; subst.
  destruct (keep x); simpl; [|auto]. constructor; [|auto].
  intros Hin. apply Hx. apply in_map_iff in Hin.
  destruct Hin as (y & <- & Hy). apply filter_In in Hy.
  now apply in_map.
Qed.

Section Sorting.

Variable registry : list Component.

Let deps (c : Component) : list string := dependencies registry c.

(** What holds of [_list], [no_edges] and [out] at every test of the
    [while] condition. *)
Record Inv (ms stack out : list Node) : Prop := {
  inv_nodes : map node ms = registry;
  inv_deps : forall m k, In m ms -> In k (deps (node m)) ->
               In k (dep m) \/ In k (map key_of out);
  inv_perm : Permutation (stack ++ out) (filter no_dep ms);
  inv_ord : ordered deps [] out;
  inv_sub : forall m k, In m ms -> In k (dep m) -> In k (deps (node m));
  inv_pending : forall m k, In m ms -> In k (dep m) ->
                  ~ In k (map key_of out);
  inv_set : forall m, In m ms -> NoDup (dep m)
}.

Lemma inv_initial :
  Inv (initial registry) (filter no_dep (initial registry)) [].
Proof.
  split.
  - unfold initial. rewrite map_map. simpl. apply map_id.
  - intros m k Hm Hk. left. unfold initial in Hm.
    apply in_map_iff in Hm. destruct Hm as (c & <- & _). exact Hk.
  - now rewrite app_nil_r.
  - exact I.
  - intros m k Hm Hk. unfold initial in Hm. apply in_map_iff in Hm.
    destruct Hm as (c & <- & _). exact Hk.
  - intros m k _ _ [].
  - intros m Hm. unfold initial in Hm. apply in_map_iff in Hm.
    destruct Hm as (c & <- & _). apply uniq_NoDup.
Qed.

Lemma inv_emitted (ms stack out : list Node) (n : Node) :
  Inv ms stack out -> In n (stack ++ out) ->
  In n ms /\ dep n = [] /\ In (node n) registry.
Proof.
  intros [Hn _ Hp _ _ _ _] Hin.
  apply (Permutation_in _ Hp) in Hin. apply filter_In in Hin.
  destruct Hin as [Hin Hd]. split; [assumption|]. split.
  - destruct n as [c [|x r]]; [reflexivity | discriminate].
  - rewrite <- Hn. now apply in_map.
Qed.

Lemma inv_step (ms stack out : list Node) (n : Node) :
  Inv ms (stack ++ [n]) out ->
  Inv (map (spliced (key_of n)) ms) (stack ++ freed (key_of n) ms)
      (out ++ [n]).
Proof.
  intros HI. destruct (inv_emitted _ _ _ n HI) as (Hin & Hdn & _).
  { apply in_or_app. left. apply in_or_app. right. now left. }
  destruct HI as [Hn Hd Hp Ho Hsub Hf Hs]. split.
  - rewrite map_map. simpl. exact Hn.
  - intros m' k Hm' Hk. apply in_map_iff in Hm'.
    destruct Hm' as (m & <- & Hm). simpl in Hk |- *.
    rewrite map_app, in_app_iff. simpl.
    destruct (Hd m k Hm Hk) as [H|H]; [|tauto].
    destruct (string_dec k (key_of n)) as [->|Hne]; [tauto|].
    left. now apply remove_first_keeps.
  - rewrite filter_spliced, <- Hp, <- !app_assoc.
    apply Permutation_app_head.
    transitivity ((out ++ [n]) ++ freed (key_of n) ms);
      [apply Permutation_app_comm|].
    rewrite (app_assoc [n]).
    apply Permutation_app_tail, Permutation_app_comm.
  - apply ordered_snoc; [assumption|]. simpl. intros k Hk.
    destruct (Hd n k Hin Hk) as [H|H]; [|assumption].
    rewrite Hdn in H. contradiction.
  - intros m' k Hm' Hk. apply in_map_iff in Hm'.
    destruct Hm' as (m & <- & Hm). simpl in Hk |- *.
    apply (Hsub m k Hm). now apply remove_first_incl in Hk.
  - intros m' k Hm' Hk. apply in_map_iff in Hm'.
    destruct Hm' as (m & <- & Hm). simpl in Hk.
    rewrite map_app, in_app_iff. simpl.
    destruct (remove_first_NoDup (dep m) (key_of n) (Hs m Hm)) as [_ Hno].
    intros [H|[<-|[]]]; [|contradiction].
    apply (Hf m k Hm); [|assumption]. now apply remove_first_incl in Hk.
  - intros m' Hm'. apply in_map_iff in Hm'.
    destruct Hm' as (m & <- & Hm). simpl.
    now apply remove_first_NoDup, Hs.
Qed.

Lemma inv_bound (ms stack out : list Node) :
  Inv ms stack out ->
  List.length stack + List.length out <= List.length registry.
Proof.
  intros [Hn _ Hp _ _ _ _]. rewrite <- length_app.
  rewrite (Permutation_length Hp), <- Hn, length_map.
  apply filter_length_le.
Qed.

Lemma all_loop_total (fuel : nat) :
  forall ms stack out,
    Inv ms stack out ->
    List.length registry <= List.length out + fuel ->
    exists res, all_loop fuel ms stack out = Some res.
Proof.
  induction fuel as [|fuel IH]; intros ms stack out HI Hf;
    simpl; pose proof (pop_inv stack) as Hpop;
    destruct (pop stack) as [[n rest]|]; eauto; subst stack.
  - apply inv_bound in HI. rewrite length_app in HI. simpl in HI. lia.
  - rewrite release_spec. apply (IH _ _ _ (inv_step _ _ _ _ HI)).
    rewrite length_app. simpl. lia.
Qed.

Lemma all_loop_inv (fuel : nat) :
  forall ms stack out res,
    Inv ms stack out ->
    all_loop fuel ms stack out = Some res ->
    exists ms', Inv ms' [] res.
Proof.
  induction fuel as [|fuel IH]; intros ms stack out res HI;
    simpl; pose proof (pop_inv stack) as Hpop;
    destruct (pop stack) as [[n rest]|]; subst stack;
    try discriminate; try (intros [= <-]; eauto).
  rewrite release_spec. apply IH. now apply inv_step.
Qed.

(** [Component.all] returns: the bound on the loop is never reached. *)
Lemma all_total : exists order, all registry = Some order.
Proof.
  unfold all.
  destruct (all_loop_total (List.length registry) _ _ _ inv_initial)
    as [res ->]; [simpl; lia|]. eauto.
Qed.

(** The order as the loop builds it, with what it satisfies. *)
Lemma all_inv (order : list Component) :
  all registry = Some order ->
  exists ms out, order = map node out /\ Inv ms [] out.
Proof.
  unfold all.
  destruct (all_loop _ _ _ _) as [res|] eqn:E; [|discriminate].
  intros [= <-].
  destruct (all_loop_inv _ _ _ _ _ inv_initial E) as [ms HI]. eauto.
Qed.

(** Only registered components are in the order. *)
Lemma all_registered (order : list Component) (c : Component) :
  all registry = Some order -> In c order -> In c registry.
Proof.
  intros H Hc. destruct (all_inv _ H) as (ms & out & -> & HI).
  apply in_map_iff in Hc. destruct Hc as (n & <- & Hn).
  now apply (inv_emitted _ _ _ n HI).
Qed.

(** A component of the order follows, for each key it depends on, a
    component with that key. *)
Lemma all_after_keys (order : list Component) (j : nat) (b : Component)
  (k : string) :
  all registry = Some order ->
  nth_error order j = Some b ->
  In k (deps b) ->
  exists i a, i < j /\ nth_error order i = Some a /\ KEY a = k.
Proof.
  intros H Hj Hk. destruct (all_inv _ H) as (ms & out & -> & HI).
  rewrite nth_error_map in Hj.
  destruct (nth_error out j) as [o|] eqn:Eo; [|discriminate].
  injection Hj as <-.
  destruct (ordered_nth deps out [] j o k (inv_ord _ _ _ HI) Eo Hk)
    as [[]|(i & a & Hi & Ha & Hka)].
  exists i, (node a). split; [assumption|]. split; [|assumption].
  rewrite nth_error_map, Ha. reflexivity.
Qed.

(** No key is carried by two components of the order when no key is
    carried by two registered components. *)
Lemma all_NoDup (order : list Component) :
  all registry = Some order ->
  NoDup (map (fun c : Component => KEY c) registry) ->
  NoDup (map (fun c : Component => KEY c) order).
Proof.
  intros H Hnd. destruct (all_inv _ H) as (ms & out & -> & HI).
  destruct HI as [Hn _ Hp _ _ _ _]. simpl in Hp.
  rewrite map_map. change (NoDup (map key_of out)).
  apply (Permutation_NoDup (Permutation_sym (Permutation_map key_of Hp))).
  apply NoDup_map_filter. rewrite <- Hn, map_map in Hnd. exact Hnd.
Qed.

(** A set of keys each of whose registered components depends on a key
    of the set is never emitted. *)
Lemma all_avoids (S : string -> Prop) (order : list Component) :
  (forall c, In c registry -> S (KEY c) -> exists k, In k (deps c) /\ S k) ->
  all registry = Some order ->
  forall c, In c order -> ~ S (KEY c).
Proof.
  intros Hstuck H c Hc. destruct (all_inv _ H) as (ms & out & -> & HI).
  apply in_map_iff in Hc. destruct Hc as (n & <- & Hn).
  apply (ordered_avoids deps S out) with (seen := []); try assumption.
  - intros o Ho HS. apply Hstuck; [|assumption].
    now apply (inv_emitted _ _ _ o HI).
  - intros k [].
  - exact (inv_ord _ _ _ HI).
Qed.

(** Every registered component is emitted when the keys the components
    wait for are all carried, down a hierarchy: [rank] goes down from a
    component to some component that carries the key it waits for. *)
Lemma all_complete (rank : Component -> nat) (order : list Component) :
  (forall c k, In c registry -> In k (deps c) ->
     exists a, In a registry /\ KEY a = k /\ rank a < rank c) ->
  all registry = Some order ->
  Permutation order registry.
Proof.
  intros Hrank H. destruct (all_inv _ H) as (ms & out & -> & HI).
  pose proof (inv_nodes _ _ _ HI) as Hn.
  pose proof (inv_perm _ _ _ HI) as Hp. simpl in Hp.
  assert (Hall : forall r m, rank (node m) < r -> In m ms ->
                   no_dep m = true).
  { induction r as [|r IH]; intros m Hr Hm; [lia|].
    destruct (dep m) as [|k ks] eqn:Ek; [unfold no_dep; now rewrite Ek|].
    exfalso.
    assert (Hk : In k (dep m)) by (rewrite Ek; now left).
    destruct (Hrank (node m) k) as (a & Ha & <- & Hlt).
    { rewrite <- Hn. now apply in_map. }
    { now apply (inv_sub _ _ _ HI m). }
    rewrite <- Hn in Ha. apply in_map_iff in Ha.
    destruct Ha as (m' & <- & Hm').
    apply (inv_pending _ _ _ HI m _ Hm Hk).
    apply (in_map key_of), (Permutation_in _ (Permutation_sym Hp)).
    apply filter_In. split; [assumption|]. apply IH; [lia | assumption]. }
  assert (Hfull : filter no_dep ms = ms).
  { clear Hp Hn HI. induction ms as [|m ms' IHm]; simpl; [reflexivity|].
    rewrite (Hall (S (rank (node m))) m); [|lia | now left].
    f_equal. apply IHm. intros r m' Hr Hm'. apply (Hall r); [assumption|].
    now right. }
  rewrite Hfull in Hp. rewrite <- Hn. now apply Permutation_map.
Qed.

End Sorting.

(** *** What [Component.dependencies] contains *)

(** The keys a component names itself: [REQUIRES] and [WAIT_FOR]. *)
Definition named (c : Component) : list string :=
  or_empty (REQUIRES c) ++ or_empty (WAIT_FOR c).

Lemma dependencies_named (registry : list Component) (c : Component)
  (k : string) :
  In k (named c) -> In k (dependencies registry c).
Proof.
  unfold dependencies, named. rewrite uniq_In, !in_app_iff. simpl. tauto.
Qed.

Lemma dependencies_hoist (registry : list Component) (c h : Component) :
  In h registry -> truthy (HOIST h) = true -> truthy (HOIST c) = false ->
  In (KEY h) (dependencies registry c).
Proof.
  intros Hin Hh Hc. unfold dependencies. rewrite Hc, uniq_In, !in_app_iff.
  split; [|tauto]. right. right. left.
  apply in_map_iff. exists h. split; [reflexivity|].
  apply filter_In. tauto.
Qed.

Lemma dependencies_sink (registry : list Component) (c n : Component) :
  In n registry -> truthy (SINK n) = false -> truthy (SINK c) = true ->
  In (KEY n) (dependencies registry c).
Proof.
  intros Hin Hn Hc. unfold dependencies. rewrite Hc, uniq_In, !in_app_iff.
  split; [|tauto]. right. right. right.
  apply in_map_iff. exists n. split; [reflexivity|].
  apply filter_In. rewrite Hn. tauto.
Qed.

(** No two registered components carry the same [KEY]. *)
Definition distinct_keys (registry : list Component) : Prop :=
  NoDup (map (fun c : Component => KEY c) registry).

Lemma distinct_keys_eq (registry : list Component) (a b : Component) :
  distinct_keys registry -> In a registry -> In b registry ->
  KEY a = KEY b -> a = b.
Proof.
  unfold distinct_keys.
  induction registry as [|c r IH]; simpl; [tauto|]. intros Hnd Ha Hb E.
  inversion Hnd as [|? ? Hc Hr]; subst.
  assert (Hk : forall x, In x r -> KEY x <> KEY c).
  { intros x Hx Ex. apply Hc. rewrite <- Ex.
    now apply (in_map (fun c : Component => KEY c)). }
  destruct Ha as [->|Ha], Hb as [->|Hb]; auto.
  - symmetry in E. now apply Hk in E.
  - now apply Hk in E.
Qed.

Lemma distinct_keys_position (l : list Component) (i j : nat)
  (c : Component) :
  distinct_keys l ->
  nth_error l i = Some c -> nth_error l j = Some c -> i = j.
Proof.
  intros Hnd Hi Hj.
  apply (proj1 (NoDup_nth_error _) Hnd).
  - rewrite length_map. apply nth_error_Some. congruence.
  - now rewrite !nth_error_map, Hi, Hj.
Qed.

(** [a] is placed strictly before position [j] of [order]. *)
Definition placed_before (order : list Component) (a : Component) (j : nat)
  : Prop :=
  exists i, i < j /\ nth_error order i = Some a.

Lemma all_after_component (registry order : list Component)
  (a b : Component) (j : nat) :
  distinct_keys registry ->
  all registry = Some order ->
  In a registry ->
  In (KEY a) (dependencies registry b) ->
  nth_error order j = Some b ->
  placed_before order a j.
Proof.
  intros Hnd Ho Ha Hk Hj.
  destruct (all_after_keys registry order j b (KEY a) Ho Hj Hk)
    as (i & a' & Hi & Ha' & E).
  exists i. split; [assumption|]. rewrite Ha'. f_equal.
  apply (distinct_keys_eq registry); try assumption.
  apply (all_registered registry order); [assumption|].
  eapply nth_error_In; eassumption.
Qed.

End Order.

(* ================================================================== *)
(** ** Facts about objects used as dictionaries *)

Module ObjFacts.
Import JS JSFacts.

Section Dictionary.
Context {V : Type}.
Implicit Types (o : Obj V) (k : string) (v : V).

Lemma has_get k o : has k o = true <-> exists v, get k o = Some v.
Proof.
  unfold has. destruct (get k o); split; eauto; try discriminate.
  intros [v Hv]. discriminate.
Qed.

Lemma has_false k o : has k o = false <-> get k o = None.
Proof. unfold has. destruct (get k o); split; congruence. Qed.

Lemma has_keys k o : has k o = true <-> In k (map fst o).
Proof.
  unfold has. induction o as [|[k' v'] r IH]; simpl.
  - split; [discriminate | tauto].
  - destruct (String.eqb_spec k k') as [->|Hne].
    + split; auto.
    + rewrite IH. split; [tauto|]. intros [H|H]; [congruence | assumption].
Qed.

Lemma get_In k v o : get k o = Some v -> In (k, v) o.
Proof.
  induction o as [|[k' v'] r IH]; simpl; [discriminate|].
  destruct (String.eqb_spec k k') as [->|Hne].
  - intros [= ->]. now left.
  - auto.
Qed.

Lemma In_get k v o : NoDup (map fst o) -> In (k, v) o -> get k o = Some v.
Proof.
  induction o as [|[k' v'] r IH]; simpl; [tauto|]. intros Hnd Hin.
  inversion Hnd as [|? ? Hk Hr]; subst.
  destruct Hin as [[= -> ->]|Hin]; [now rewrite String.eqb_refl|].
  destruct (String.eqb_spec k k') as [->|Hne]; [|auto].
  exfalso. apply Hk. now apply (in_map fst _ (k', v)).
Qed.

Lemma get_app k o o' :
  get k (o ++ o') = match get k o with Some v => Some v | None => get k o' end.
Proof.
  induction o as [|[k' v'] r IH]; simpl; [reflexivity|].
  now destruct (String.eqb k k').
Qed.

Lemma update_keys k v o : map fst (update k v o) = map fst o.
Proof.
  induction o as [|[k' v'] r IH]; simpl; [reflexivity|].
  destruct (String.eqb k k'); simpl; congruence.
Qed.

Lemma get_update k' k v o :
  get k' (update k v o) =
  if String.eqb k' k then (if has k o then Some v else None) else get k' o.
Proof.
  unfold has. induction o as [|[k0 v0] r IH]; simpl.
  - now destruct (String.eqb k' k).
  - destruct (String.eqb_spec k k0) as [->|Hne]; simpl.
    + now destruct (String.eqb k' k0).
    + destruct (String.eqb_spec k' k0) as [->|Hne'].
      * destruct (String.eqb_spec k0 k); congruence.
      * exact IH.
Qed.

Lemma has_update k' k v o : has k' (update k v o) = has k' o.
Proof.
  apply eq_true_iff_eq. now rewrite !has_keys, update_keys.
Qed.

Lemma update_same k v o : get k o = Some v -> update k v o = o.
Proof.
  induction o as [|[k' v'] r IH]; simpl; [reflexivity|].
  destruct (String.eqb_spec k k') as [->|Hne].
  - now intros [= ->].
  - intros H. now rewrite IH.
Qed.

Lemma get_set k' k v o :
  get k' (set k v o) = if String.eqb k' k then Some v else get k' o.
Proof.
  unfold set. destruct (has k o) eqn:E.
  - rewrite get_update, E. reflexivity.
  - rewrite get_app. simpl. apply has_false in E.
    destruct (String.eqb_spec k' k) as [->|Hne].
    + now rewrite E.
    + now destruct (get k' o).
Qed.

Lemma set_keys k v o :
  map fst (set k v o) = if has k o then map fst o else map fst o ++ [k].
Proof.
  unfold set. destruct (has k o).
  - apply update_keys.
  - now rewrite map_app.
Qed.

Lemma set_NoDup k v o : NoDup (map fst o) -> NoDup (map fst (set k v o)).
Proof.
  intros H. rewrite set_keys. destruct (has k o) eqn:E; [assumption|].
  apply NoDup_app; [assumption | repeat constructor; easy |].
  intros x Hx [<-|[]]. apply has_keys in Hx. congruence.
Qed.

Lemma get_delete k' k o :
  get k' (delete k o) = if String.eqb k' k then None else get k' o.
Proof.
  unfold delete. induction o as [|[k0 v0] r IH]; simpl.
  - now destruct (String.eqb k' k).
  - destruct (String.eqb_spec k k0) as [->|Hne]; simpl.
    + rewrite IH. destruct (String.eqb_spec k' k0); reflexivity.
    + rewrite IH. destruct (String.eqb_spec k' k0) as [->|Hne'];
        [|reflexivity].
      destruct (String.eqb_spec k0 k); congruence.
Qed.

Lemma has_delete k' k o :
  has k' (delete k o) = if String.eqb k' k then false else has k' o.
Proof.
  unfold has. rewrite get_delete. now destruct (String.eqb k' k).
Qed.

Lemma delete_NoDup k o : NoDup (map fst o) -> NoDup (map fst (delete k o)).
Proof. apply Order.NoDup_map_filter. Qed.

(** Enumeration lists every own property once. *)
Lemma insert_index_perm (kv : string * V) (l : Obj V) :
  Permutation (insert_index kv l) (kv :: l).
Proof.
  induction l as [|x r IH]; simpl; [reflexivity|].
  destruct (index_of kv <=? index_of x)%N; [reflexivity|].
  rewrite IH. apply perm_swap.
Qed.

Lemma sort_index_perm (l : Obj V) : Permutation (sort_index l) l.
Proof.
  induction l as [|x r IH]; simpl; [reflexivity|].
  rewrite insert_index_perm. now constructor.
Qed.

Lemma filter_split_perm {A : Type} (p : A -> bool) (l : list A) :
  Permutation (filter p l ++ filter (fun x => negb (p x)) l) l.
Proof.
  induction l as [|x r IH]; simpl; [reflexivity|].
  destruct (p x); simpl.
  - now constructor.
  - symmetry. apply Permutation_cons_app. now symmetry.
Qed.

Lemma entries_perm o : Permutation (entries o) o.
Proof.
  unfold entries. rewrite sort_index_perm. apply filter_split_perm.
Qed.

Lemma entries_In kv o : In kv (entries o) <-> In kv o.
Proof.
  split; apply Permutation_in; [|symmetry]; apply entries_perm.
Qed.

Lemma entries_NoDup o :
  NoDup (map fst o) -> NoDup (map fst (entries o)).
Proof.
  apply Permutation_NoDup, Permutation_map, Permutation_sym, entries_perm.
Qed.

Lemma keys_In k o : In k (keys o) <-> has k o = true.
Proof.
  unfold keys. rewrite has_keys. split; apply Permutation_in;
    apply Permutation_map; [|symmetry]; apply entries_perm.
Qed.

End Dictionary.

Lemma get_map {V W : Type} (f : V -> W) (k : string) (o : Obj V) :
  get k (map (fun kv => (fst kv, f (snd kv))) o) = option_map f (get k o).
Proof.
  induction o as [|[k' v'] r IH]; simpl; [reflexivity|].
  now destruct (String.eqb k k').
Qed.

End ObjFacts.

(* ================================================================== *)
(** ** One call of [Component.resolve] and one turn of the resolver *)

Module Resolution.
Import JS JSFacts ObjFacts Comp Schema.

Ltac run_resolve :=
  unfold resolve, bind, call, ret, mark_passed, check_requires,
    apply_transform;
  repeat match goal with
    | |- context [match ?scrutinee with _ => _ end] =>
        lazymatch scrutinee with
        | context [match _ with _ => _ end] => fail
        | _ => destruct scrutinee eqn:?
        end
    end;
  simpl.

(** What a call of [resolve] can have done to [ctx.passed]: nothing, or
    the push of the id on the passed-set of the component's key. *)
Definition pushed (c : Component) (ctx : Context.t) (p : PassedMap) : Prop :=
  p = Context.passed ctx
  \/ exists ids,
       get (KEY c) (Context.passed ctx) = Some ids
       /\ p = update (KEY c) (ids ++ [Context.id ctx]) (Context.passed ctx).

Lemma resolve_effect (c : Component) (ctx : Context.t) :
  Context.id (fst (resolve c ctx)) = Context.id ctx
  /\ pushed c ctx (Context.passed (fst (resolve c ctx))).
Proof.
  unfold pushed. run_resolve; (split; [reflexivity|]); eauto.
Qed.

Lemma remove_id_first (id : string) (ids : list string) :
  remove_id id ids = remove_first id ids.
Proof.
  unfold remove_id.
  destruct (Z.ltb_spec (-1) (indexOf ids id)) as [H|H].
  - apply splice1_indexOf. lia.
  - symmetry. apply remove_first_absent. intros Hin.
    apply indexOf_found in Hin. lia.
Qed.

(** The passed-sets after the [catch] has removed [id] from each. *)
Definition pruned (id : string) (p : PassedMap) : PassedMap :=
  map (fun ks => (fst ks, remove_id id (snd ks))) p.

Lemma get_pruned (id key : string) (p : PassedMap) :
  get key (pruned id p) = option_map (remove_first id) (get key p).
Proof.
  unfold pruned. rewrite (get_map (remove_id id)).
  destruct (get key p); simpl; [|reflexivity].
  now rewrite remove_id_first.
Qed.

(** The two ways a turn of the loop over the entries ends. *)
Inductive Outcome (k : string) (st st' : Run) (p : PassedMap)
  : option string -> Prop :=
| Resolved (parent' : Entity) :
    errors st' = errors st ->
    d st' = d st ->
    out st' = update k parent' (out st) ->
    passed st' = p ->
    Outcome k st st' p None
| Evicted (msg : string) :
    errors st' = error k (One msg) (errors st) ->
    d st' = delete k (d st) ->
    out st' = delete k (out st) ->
    passed st' = pruned k p ->
    Outcome k st st' p (Some msg).

Lemma visit_spec (components : list Component) (comp : Component)
  (st : Run) (k : string) (v : Entity) :
  exists ev p,
    visited (visit components comp st (k, v)) = visited st ++ [ev]
    /\ ev_comp ev = comp
    /\ ev_id ev = k
    /\ ev_after ev = locals (visit components comp st (k, v))
    /\ ev_thrown ev = match snd (resolve comp (context components st k v)) with
                      | Ok _ => None
                      | Throw e => Some e
                      end
    /\ pushed comp (context components st k v) p
    /\ Outcome k st (visit components comp st (k, v)) p (ev_thrown ev).
Proof.
  unfold visit.
  destruct (resolve_effect comp (context components st k v)) as [Hid Hp].
  destruct (resolve comp (context components st k v)) as [ctx' [[]|err]];
    simpl in *; eexists; exists (Context.passed ctx');
    (split; [reflexivity|]); simpl; repeat (split; [reflexivity|]);
    (split; [exact Hp|]).
  - now apply (Resolved _ _ _ _ (Context.parent ctx')).
  - rewrite Hid. now apply Evicted.
Qed.

End Resolution.

(* ================================================================== *)
(** ** What holds throughout a run of the resolver *)

Module Runs.
Import JS JSFacts ObjFacts Comp Schema Resolution.

(** The errors a run reports, in order: the key and the error of each
    call of [error]. *)
Definition Log : Type := list (string * string).

Definition report (log : Log) (errors : ErrorMap) : ErrorMap :=
  fold_left (fun e km => error (fst km) (One (snd km)) e) log errors.

(** What the calls of [resolve] threw. *)
Definition thrown (evs : list Event) : Log :=
  flat_map
    (fun ev => match ev_thrown ev with
               | Some msg => [(ev_id ev, msg)]
               | None => []
               end)
    evs.

Lemma report_app (l1 l2 : Log) (e : ErrorMap) :
  report (l1 ++ l2) e = report l2 (report l1 e).
Proof. apply fold_left_app. Qed.

Lemma thrown_app (l1 l2 : list Event) :
  thrown (l1 ++ l2) = thrown l1 ++ thrown l2.
Proof. apply flat_map_app. Qed.

Lemma get_error (k' k : string) (msg : string) (e : ErrorMap) :
  get k' (error k (One msg) e) =
  if String.eqb k' k then Some (or_empty (get k e) ++ [msg]) else get k' e.
Proof.
  unfold error. rewrite get_set.
  destruct (String.eqb_spec k' k) as [->|Hne].
  - destruct (has k e) eqn:E; [reflexivity|].
    rewrite get_set, String.eqb_refl. apply has_false in E. now rewrite E.
  - destruct (has k e); [reflexivity|]. rewrite get_set.
    apply String.eqb_neq in Hne. now rewrite Hne.
Qed.

(** An error, once under a key, stays there. *)
Lemma report_keeps (log : Log) (e : ErrorMap) (k msg : string)
  (es : list string) :
  get k e = Some es -> In msg es ->
  exists es', get k (report log e) = Some es' /\ In msg es'.
Proof.
  revert e es. induction log as [|[k0 m0] log IH]; intros e es Hg Hin;
    simpl; [eauto|].
  destruct (String.eqb_spec k k0) as [->|Hne].
  - apply (IH _ (es ++ [m0])).
    + rewrite get_error, String.eqb_refl, Hg. reflexivity.
    + apply in_or_app. now left.
  - apply (IH _ es); [|assumption].
    rewrite get_error. apply String.eqb_neq in Hne. now rewrite Hne.
Qed.

Lemma report_In (log : Log) (e : ErrorMap) (k msg : string) :
  In (k, msg) log ->
  exists es, get k (report log e) = Some es /\ In msg es.
Proof.
  revert e. induction log as [|[k0 m0] log IH]; intros e; simpl; [tauto|].
  intros [[= -> ->]|Hin]; [|auto].
  apply (report_keeps log _ k msg (or_empty (get k e) ++ [msg])).
  - now rewrite get_error, String.eqb_refl.
  - apply in_or_app. right. now left.
Qed.

(** *** The first two loops *)

(** The map [d] the first loop builds from [d], and the duplicate-id
    errors it reports. *)
Fixpoint index (d : EntityMap) (ent : list EntityData) : EntityMap :=
  match ent with
  | [] => d
  | e :: r =>
      let id := toString (field "id" e) in
      match get id d with
      | Some _ => index d r
      | None => index (set id e d) r
      end
  end.

Fixpoint duplicates (d : EntityMap) (ent : list EntityData) : Log :=
  match ent with
  | [] => []
  | e :: r =>
      let id := toString (field "id" e) in
      match get id d with
      | Some first => (id, duplicate_id e first) :: duplicates d r
      | None => duplicates (set id e d) r
      end
  end.

Lemma index_record_fold (ent : list EntityData) (d : EntityMap)
  (e : ErrorMap) :
  fold_left index_record ent (d, e) = (index d ent, report (duplicates d ent) e).
Proof.
  revert d e. induction ent as [|r ent IH]; intros d e; simpl;
    [reflexivity|].
  destruct (get (toString (field "id" r)) d); now rewrite IH.
Qed.





Lemma index_NoDup (ent : list EntityData) (d : EntityMap) :
  NoDup (map fst d) -> NoDup (map fst (index d ent)).
Proof.
  revert d. induction ent as [|e ent IH]; intros d Hd; simpl; [assumption|].
  destruct (get (toString (field "id" e)) d); [auto|].
  apply IH. now apply set_NoDup.
Qed.

Lemma seed_loop_NoDup (l : list string) (o : Manifest) :
  NoDup (map fst o) ->
  NoDup (map fst (fold_left (fun out key => set key [] out) l o)).
Proof.
  revert o. induction l as [|k l IH]; intros o H; simpl; [assumption|].
  apply IH. now apply set_NoDup.
Qed.

Lemma seed_NoDup (d : EntityMap) : NoDup (map fst (seed d)).
Proof. apply seed_loop_NoDup. constructor. Qed.

Lemma seed_loop_has (l : list string) (o : Manifest) (k : string) :
  has k (fold_left (fun out key => set key [] out) l o) = true ->
  In k l \/ has k o = true.
Proof.
  revert o. induction l as [|k' l IH]; intros o H; simpl in *; [tauto|].
  destruct (IH _ H) as [Hin|Hh]; [tauto|].
  unfold has in Hh. rewrite get_set in Hh.
  destruct (String.eqb_spec k k') as [->|Hne]; [tauto | now right].
Qed.

Lemma seed_has (d : EntityMap) (k : string) :
  has k (seed d) = true -> has k d = true.
Proof.
  intros H. destruct (seed_loop_has _ _ _ H) as [Hin|Hh];
    [now apply keys_In | discriminate].
Qed.

(** *** The loops over the components and over the entries *)

Section Invariants.

Variable components : list Component.
Variable d0 : EntityMap.

(** The locals are well formed: one entry per id in [out], each with
    its record in [d]; no id twice in a passed-set; and [d] holds
    records of the initial map only. *)
Record WF (st : Locals) : Prop := {
  wf_out : NoDup (map fst (out st));
  wf_data : forall k, has k (out st) = true -> has k (d st) = true;
  wf_passed : forall key ids, get key (passed st) = Some ids -> NoDup ids;
  wf_d : forall k r, get k (d st) = Some r -> get k d0 = Some r
}.

(** The entity [k] is in none of the locals. *)
Definition gone (k : string) (st : Locals) : Prop :=
  has k (out st) = false
  /\ has k (d st) = false
  /\ forall key ids, get key (passed st) = Some ids -> ~ In k ids.

Record Sound (st : Run) : Prop := {
  sound_wf : WF st;
  sound_comp : forall ev, In ev (visited st) -> In (ev_comp ev) components;
  sound_gone : forall ev, In ev (visited st) -> ev_thrown ev <> None ->
                 gone (ev_id ev) (ev_after ev)
                 /\ has (ev_id ev) (out st) = false;
  sound_once : forall i j ev ev', i < j ->
                 nth_error (visited st) i = Some ev ->
                 nth_error (visited st) j = Some ev' ->
                 ev_thrown ev <> None -> ev_id ev' <> ev_id ev
}.

(** The entry [k] is still to be visited in the pass of [comp]. *)
Definition fresh (comp : Component) (st : Locals) (k : string) : Prop :=
  has k (out st) = true
  /\ forall ids, get (KEY comp) (passed st) = Some ids -> ~ In k ids.

Lemma pushed_NoDup (comp : Component) (st : Locals) (k : string)
  (v : Entity) (p : PassedMap) :
  WF st -> fresh comp st k ->
  pushed comp (context components st k v) p ->
  forall key ids, get key p = Some ids -> NoDup ids.
Proof.
  intros Hwf [_ Hf] [->|(ids0 & Hg & ->)] key ids; simpl in *.
  - apply (wf_passed _ Hwf).
  - rewrite get_update.
    destruct (String.eqb key (KEY comp)); [|apply (wf_passed _ Hwf)].
    destruct (has (KEY comp) (passed st)); [|discriminate].
    intros [= <-]. apply NoDup_app.
    + apply (wf_passed _ Hwf _ _ Hg).
    + repeat constructor. easy.
    + intros x Hx [<-|[]]. exact (Hf _ Hg Hx).
Qed.

Lemma pushed_fresh (comp : Component) (st : Locals) (k k' : string)
  (v : Entity) (p : PassedMap) :
  k' <> k ->
  (forall ids, get (KEY comp) (passed st) = Some ids -> ~ In k' ids) ->
  pushed comp (context components st k v) p ->
  forall ids, get (KEY comp) p = Some ids -> ~ In k' ids.
Proof.
  intros Hne Hf [->|(ids0 & Hg & ->)] ids; simpl in *; [apply Hf|].
  rewrite get_update, String.eqb_refl.
  destruct (has (KEY comp) (passed st)); [|discriminate].
  intros [= <-] Hin. apply in_app_or in Hin.
  destruct Hin as [Hin|[Hin|[]]]; [exact (Hf _ Hg Hin) | congruence].
Qed.

Lemma visit_WF (comp : Component) (st : Run) (k : string) (v : Entity) :
  WF st -> fresh comp st k -> WF (visit components comp st (k, v)).
Proof.
  intros Hwf Hf.
  destruct (visit_spec components comp st k v)
    as (ev & p & _ & _ & _ & _ & _ & Hp & Ho).
  pose proof (pushed_NoDup _ _ _ _ _ Hwf Hf Hp) as Hnd.
  destruct Ho as [parent' _ Hd Hout Hpa | msg _ Hd Hout Hpa]; split.
  - rewrite Hout, update_keys. apply (wf_out _ Hwf).
  - intros k'. rewrite Hout, Hd, has_update. apply (wf_data _ Hwf).
  - now rewrite Hpa.
  - rewrite Hd. apply (wf_d _ Hwf).
  - rewrite Hout. apply delete_NoDup, (wf_out _ Hwf).
  - intros k'. rewrite Hout, Hd, !has_delete.
    destruct (String.eqb k' k); [discriminate | apply (wf_data _ Hwf)].
  - rewrite Hpa. intros key ids. rewrite get_pruned.
    destruct (get key p) as [ids0|] eqn:E; [|discriminate].
    intros [= <-]. now apply remove_first_NoDup, (Hnd key).
  - rewrite Hd. intros k' r. rewrite get_delete.
    destruct (String.eqb k' k); [discriminate | apply (wf_d _ Hwf)].
Qed.

(** An entry of [out] is only ever removed. *)
Lemma visit_out (comp : Component) (st : Run) (k k' : string) (v : Entity) :
  has k' (out (visit components comp st (k, v))) = true ->
  has k' (out st) = true.
Proof.
  destruct (visit_spec components comp st k v)
    as (ev & p & _ & _ & _ & _ & _ & _ & Ho).
  destruct Ho as [parent' _ _ -> _ | msg _ _ -> _].
  - now rewrite has_update.
  - rewrite has_delete. now destruct (String.eqb k' k).
Qed.

Lemma visit_fresh (comp : Component) (st : Run) (k k' : string)
  (v : Entity) :
  k' <> k -> fresh comp st k' ->
  fresh comp (visit components comp st (k, v)) k'.
Proof.
  intros Hne [Hh Hf].
  destruct (visit_spec components comp st k v)
    as (ev & p & _ & _ & _ & _ & _ & Hp & Ho).
  pose proof (pushed_fresh _ _ _ _ _ _ Hne Hf Hp) as Hfp.
  apply String.eqb_neq in Hne.
  destruct Ho as [parent' _ _ Hout Hpa | msg _ _ Hout Hpa]; split.
  - now rewrite Hout, has_update.
  - now rewrite Hpa.
  - now rewrite Hout, has_delete, Hne.
  - rewrite Hpa. intros ids. rewrite get_pruned.
    destruct (get (KEY comp) p) as [ids0|] eqn:E; [|discriminate].
    intros [= <-] Hin. apply remove_first_incl in Hin.
    exact (Hfp _ eq_refl Hin).
Qed.

Lemma visit_Sound (comp : Component) (st : Run) (k : string) (v : Entity) :
  In comp components -> Sound st -> fresh comp st k ->
  Sound (visit components comp st (k, v)).
Proof.
  intros Hc HS Hf. pose proof (visit_WF comp st k v (sound_wf _ HS) Hf) as Hwf.
  pose proof (visit_out comp st k) as Hmono.
  destruct (visit_spec components comp st k v)
    as (ev & p & Hv & Hec & Hei & Hea & _ & Hp & Ho).
  pose proof (pushed_NoDup _ _ _ _ _ (sound_wf _ HS) Hf Hp) as Hnd.
  assert (Hold : forall e, In e (visited st) -> ev_thrown e <> None ->
                           ev_id e <> k).
  { intros e He Ht E. destruct (sound_gone _ HS e He Ht) as [_ Hg].
    destruct Hf as [Hh _]. congruence. }
  split; [assumption| | |].
  - rewrite Hv. intros e He. apply in_app_or in He.
    destruct He as [He|[<-|[]]]; [now apply (sound_comp _ HS) | congruence].
  - rewrite Hv. intros e He Ht. apply in_app_or in He.
    destruct He as [He|[<-|[]]].
    + destruct (sound_gone _ HS e He Ht) as [Hg Hh]. split; [assumption|].
      destruct (has (ev_id e) (out (visit components comp st (k, v))))
        eqn:E; [|reflexivity].
      apply Hmono in E. congruence.
    + rewrite Hea, Hei.
      destruct Ho as [parent' _ _ _ _ | msg _ Hd Hout Hpa]; [easy|].
      assert (Hk : has k (out (visit components comp st (k, v))) = false).
      { now rewrite Hout, has_delete, String.eqb_refl. }
      split; [|assumption]. split; [assumption|]. split.
      * now rewrite Hd, has_delete, String.eqb_refl.
      * rewrite Hpa. intros key ids. rewrite get_pruned.
        destruct (get key p) as [ids0|] eqn:E; [|discriminate].
        intros [= <-]. now apply remove_first_NoDup, (Hnd key).
  - rewrite Hv. intros i j e e' Hij Hi Hj Ht.
    assert (Hlen : j < List.length (visited st ++ [ev])).
    { apply nth_error_Some. congruence. }
    rewrite length_app in Hlen. simpl in Hlen.
    rewrite nth_error_app1 in Hi by lia.
    destruct (Nat.eq_dec j (List.length (visited st))) as [->|Hj'].
    + rewrite nth_error_app2, Nat.sub_diag in Hj by lia.
      injection Hj as <-. rewrite Hei. apply not_eq_sym, Hold; [|assumption].
      eapply nth_error_In; eassumption.
    + rewrite nth_error_app1 in Hj by lia.
      now apply (sound_once _ HS i j).
Qed.

(** The loop over a snapshot [es] of the entries, none visited yet. *)
Lemma entries_Sound (comp : Component) (es : list (string * Entity)) :
  In comp components ->
  forall st, Sound st -> NoDup (map fst es) ->
    (forall kv, In kv es -> fresh comp st (fst kv)) ->
    Sound (fold_left (visit components comp) es st).
Proof.
  intros Hc. induction es as [|[k v] es IH]; intros st HS Hnd Hf; simpl;
    [assumption|].
  inversion Hnd as [|? ? Hk Hes]; subst.
  apply IH; [|assumption|].
  - apply visit_Sound; [assumption | assumption |].
    apply (Hf (k, v)). now left.
  - intros [k' v'] Hin. simpl. apply visit_fresh.
    + intros ->. apply Hk. now apply (in_map fst _ (k, v')).
    + apply (Hf (k', v')). now right.
Qed.

Lemma pass_Sound (comp : Component) (st : Run) :
  In comp components -> Sound st -> Sound (pass components st comp).
Proof.
  intros Hc HS. unfold pass. apply entries_Sound; simpl.
  - assumption.
  - destruct HS as [[H1 H0 H2 H3] H4 H5 H6]. split; [split| | |]; simpl;
      try assumption.
    intros key ids. rewrite get_set.
    destruct (String.eqb key (KEY comp)); [|apply H2].
    intros [= <-]. constructor.
  - apply entries_NoDup, (wf_out _ (sound_wf _ HS)).
  - intros [k v] Hin. split; simpl.
    + apply has_keys, (in_map fst _ (k, v)). now apply entries_In.
    + intros ids. rewrite get_set, String.eqb_refl. now intros [= <-].
Qed.

Lemma passes_Sound (comps : list Component) :
  incl comps components ->
  forall st, Sound st -> Sound (fold_left (pass components) comps st).
Proof.
  induction comps as [|c comps IH]; intros Hi st HS; simpl; [assumption|].
  apply IH.
  - intros x Hx. apply Hi. now right.
  - apply pass_Sound; [apply Hi; now left | assumption].
Qed.

(** The entity a turn of the loop is handed is the one [out] holds at
    that time: the snapshot [Object.entries(out)] of a pass never lags
    behind [out]. *)
Fixpoint current (comp : Component) (es : list (string * Entity))
  (st : Run) : Prop :=
  match es with
  | [] => True
  | (k, v) :: r =>
      get k (out st) = Some v
      /\ current comp r (visit components comp st (k, v))
  end.

Lemma visit_elsewhere (comp : Component) (st : Run) (k k' : string)
  (v : Entity) :
  k' <> k ->
  get k' (out (visit components comp st (k, v))) = get k' (out st).
Proof.
  intros Hne. apply String.eqb_neq in Hne.
  destruct (visit_spec components comp st k v)
    as (ev & p & _ & _ & _ & _ & _ & _ & Ho).
  destruct Ho as [parent' _ _ -> _ | msg _ _ -> _].
  - now rewrite get_update, Hne.
  - now rewrite get_delete, Hne.
Qed.

Lemma entries_current (comp : Component) (es : list (string * Entity)) :
  NoDup (map fst es) ->
  forall st : Run,
    (forall k v, In (k, v) es -> get k (out st) = Some v) ->
    current comp es st.
Proof.
  induction es as [|[k v] es IH]; intros Hnd st Hcur; cbn [current];
    [exact I|].
  inversion Hnd as [|? ? Hk Hes]; subst.
  split; [apply Hcur; now left|]. apply IH; [assumption|].
  intros k' v' Hin. rewrite visit_elsewhere; [apply Hcur; now right|].
  intros ->. apply Hk. now apply (in_map fst _ (k, v')).
Qed.

Lemma pass_current (comp : Component) (st : Run) :
  WF st ->
  current comp (entries (out st))
    {| locals := {| d := d st; out := out st;
                    passed := set (KEY comp) [] (passed st) |};
       errors := errors st; visited := visited st |}.
Proof.
  intros Hwf. apply entries_current.
  - apply entries_NoDup, (wf_out _ Hwf).
  - intros k v Hin. simpl. apply In_get; [apply (wf_out _ Hwf)|].
    now apply entries_In.
Qed.

End Invariants.

(** *** The errors of a run, and what a run does not depend on *)

Section Reports.

Variable components : list Component.

(** The module's [errors] are the initial ones with, added in order,
    what the calls of [resolve] threw. *)
Definition Logged (e1 : ErrorMap) (st : Run) : Prop :=
  errors st = report (thrown (visited st)) e1.

Lemma visit_Logged (e1 : ErrorMap) (comp : Component) (st : Run)
  (kv : string * Entity) :
  Logged e1 st -> Logged e1 (visit components comp st kv).
Proof.
  unfold Logged. intros HL. destruct kv as [k v].
  destruct (visit_spec components comp st k v)
    as (ev & p & Hv & _ & Hi & _ & _ & _ & Ho).
  rewrite Hv, thrown_app, report_app, <- HL. unfold thrown, flat_map.
  rewrite app_nil_r, Hi.
  destruct Ho as [parent' He _ _ _ | msg He _ _ _]; now rewrite He.
Qed.

Lemma entries_Logged (e1 : ErrorMap) (comp : Component)
  (es : list (string * Entity)) (st : Run) :
  Logged e1 st -> Logged e1 (fold_left (visit components comp) es st).
Proof.
  revert st. induction es as [|kv es IH]; intros st HL; simpl; [assumption|].
  now apply IH, visit_Logged.
Qed.

Lemma pass_Logged (e1 : ErrorMap) (comp : Component) (st : Run) :
  Logged e1 st -> Logged e1 (pass components st comp).
Proof. intros HL. unfold pass. now apply entries_Logged. Qed.

Lemma passes_Logged (e1 : ErrorMap) (comps : list Component) (st : Run) :
  Logged e1 st -> Logged e1 (fold_left (pass components) comps st).
Proof.
  revert st. induction comps as [|c comps IH]; intros st HL; simpl;
    [assumption|].
  now apply IH, pass_Logged.
Qed.

(** Two states that differ in the module's [errors] only. *)
Definition alike (s t : Run) : Prop :=
  locals s = locals t /\ visited s = visited t.

Lemma visit_alike (comp : Component) (s t : Run) (kv : string * Entity) :
  alike s t ->
  alike (visit components comp s kv) (visit components comp t kv).
Proof.
  destruct s as [ls es vs], t as [lt et vt]. intros [Hl Hv].
  simpl in Hl, Hv. subst lt vt. destruct kv as [k v]. unfold visit. simpl.
  destruct (resolve comp (context components ls k v)) as [ctx' [[]|err]];
    split; reflexivity.
Qed.

Lemma entries_alike (comp : Component) (es : list (string * Entity))
  (s t : Run) :
  alike s t ->
  alike (fold_left (visit components comp) es s)
        (fold_left (visit components comp) es t).
Proof.
  revert s t. induction es as [|kv es IH]; intros s t H; simpl;
    [assumption|].
  now apply IH, visit_alike.
Qed.

Lemma pass_alike (comp : Component) (s t : Run) :
  alike s t -> alike (pass components s comp) (pass components t comp).
Proof.
  intros [Hl Hv]. unfold pass. simpl. rewrite Hl, Hv.
  apply entries_alike. split; reflexivity.
Qed.

Lemma passes_alike (comps : list Component) (s t : Run) :
  alike s t ->
  alike (fold_left (pass components) comps s)
        (fold_left (pass components) comps t).
Proof.
  revert s t. induction comps as [|c comps IH]; intros s t H; simpl;
    [assumption|].
  now apply IH, pass_alike.
Qed.

End Reports.

(** *** A whole run *)

(** [resolveEntities] returns, in a state where the invariants hold, and
    the errors it added are the duplicate ids followed by what the calls
    of [resolve] threw. *)
Lemma run_Sound (registry : list Component) (e0 : ErrorMap)
  (ent : list EntityData) :
  exists order st,
    all registry = Some order
    /\ resolveEntities_run registry e0 ent = Some st
    /\ Sound order (index [] ent) st
    /\ errors st = report (duplicates [] ent ++ thrown (visited st)) e0.
Proof.
  destruct (Order.all_total registry) as [order Ho].
  unfold resolveEntities_run. rewrite index_record_fold, Ho.
  eexists; eexists. split; [reflexivity|]. split; [reflexivity|]. split.
  - apply passes_Sound; [apply incl_refl|].
    split; [split| | |]; simpl; try easy.
    + apply seed_NoDup.
    + apply seed_has.
    + intros [|i] j ev ev' _ Hi; discriminate.
  - rewrite report_app. apply passes_Logged. reflexivity.
Qed.

(** The locals and the calls of a run depend on the records through the
    map [d] of the first loop only, and not on the initial [errors]. *)
Lemma run_alike (registry : list Component) (e0 e0' : ErrorMap)
  (ent ent' : list EntityData) (s t : Run) :
  index [] ent = index [] ent' ->
  resolveEntities_run registry e0 ent = Some s ->
  resolveEntities_run registry e0' ent' = Some t ->
  alike s t.
Proof.
  unfold resolveEntities_run. rewrite !index_record_fold. intros ->.
  destruct (all registry) as [order|]; [|discriminate].
  intros [= <-] [= <-]. apply passes_alike. split; reflexivity.
Qed.

End Runs.

(* ================================================================== *)
(** ** A rule for the runs of the resolver *)

Module Rules.
Import JS JSFacts ObjFacts Comp Order Schema Resolution Runs.

(** The state after [passed[comp.KEY] = []], with which a pass begins. *)
Definition reset (comp : Component) (st : Run) : Run :=
  {| locals := {| d := d st; out := out st;
                  passed := set (KEY comp) [] (passed st) |};
     errors := errors st;
     visited := visited st |}.

Lemma pass_reset (components : list Component) (st : Run)
  (comp : Component) :
  pass components st comp
  = fold_left (visit components comp) (entries (out st)) (reset comp st).
Proof. reflexivity. Qed.

(** The state in which the loop over the components begins. *)
Definition start (e0 : ErrorMap) (ent : list EntityData) : Run :=
  {| locals := {| d := index [] ent; out := seed (index [] ent);
                  passed := [] |};
     errors := report (duplicates [] ent) e0;
     visited := [] |}.

Lemma run_start (registry order : list Component) (e0 : ErrorMap)
  (ent : list EntityData) :
  all registry = Some order ->
  resolveEntities_run registry e0 ent
  = Some (fold_left (pass order) order (start e0 ent)).
Proof.
  intros Ho. unfold resolveEntities_run. now rewrite index_record_fold, Ho.
Qed.

Section Rule.

Variable components : list Component.
Variable d0 : EntityMap.

(** [P done st]: what is to hold of the state [st] when the passes of
    the components [done] are over or, for the last of them, going on. *)
Variable P : list Component -> Run -> Prop.

Hypothesis P_reset :
  forall done comp rest st,
    components = done ++ comp :: rest ->
    Sound components d0 st ->
    P done st -> P (done ++ [comp]) (reset comp st).

Hypothesis P_visit :
  forall done comp rest st k v,
    components = done ++ comp :: rest ->
    Sound components d0 st ->
    fresh comp st k ->
    get k (out st) = Some v ->
    P (done ++ [comp]) st ->
    P (done ++ [comp]) (visit components comp st (k, v)).

Lemma reset_Sound (comp : Component) (st : Run) :
  Sound components d0 st -> Sound components d0 (reset comp st).
Proof.
  intros [[H1 H0 H2 H3] H4 H5 H6]. split; [split| | |]; simpl;
    try assumption.
  intros key ids. rewrite get_set.
  destruct (String.eqb key (KEY comp)); [|apply H2].
  intros [= <-]. constructor.
Qed.

Lemma entries_rule (done rest : list Component) (comp : Component) :
  components = done ++ comp :: rest ->
  forall es (st : Run),
    Sound components d0 st ->
    NoDup (map fst es) ->
    (forall k v, In (k, v) es ->
       fresh comp st k /\ get k (out st) = Some v) ->
    P (done ++ [comp]) st ->
    Sound components d0 (fold_left (visit components comp) es st)
    /\ P (done ++ [comp]) (fold_left (visit components comp) es st).
Proof.
  intros Hc.
  assert (Hin : In comp components).
  { rewrite Hc. apply in_or_app. right. now left. }
  induction es as [|[k v] es IH]; intros st HS Hnd Hes HP;
    cbn [fold_left]; [tauto|].
  simpl in Hnd. apply NoDup_cons_iff in Hnd. destruct Hnd as [Hk Hnd'].
  destruct (Hes k v (or_introl eq_refl)) as [Hf Hcur].
  apply IH; [now apply visit_Sound | assumption | |].
  - intros k' v' Hin'.
    assert (Hne : k' <> k).
    { intros ->. apply Hk. now apply (in_map fst _ (k, v')). }
    destruct (Hes k' v' (or_intror Hin')) as [Hf' Hcur'].
    split; [now apply visit_fresh|].
    now rewrite (visit_elsewhere components comp st k k' v Hne).
  - now apply (P_visit done comp rest).
Qed.

Lemma pass_rule (done rest : list Component) (comp : Component) (st : Run) :
  components = done ++ comp :: rest ->
  Sound components d0 st ->
  P done st ->
  Sound components d0 (pass components st comp)
  /\ P (done ++ [comp]) (pass components st comp).
Proof.
  intros Hc HS HP. rewrite pass_reset.
  apply (entries_rule done rest comp Hc).
  - now apply reset_Sound.
  - apply entries_NoDup, (wf_out _ _ (sound_wf _ _ _ HS)).
  - intros k v Hin. apply (proj1 (entries_In _ _)) in Hin.
    assert (Hg : get k (out st) = Some v).
    { apply In_get; [apply (wf_out _ _ (sound_wf _ _ _ HS)) | assumption]. }
    split; [split|exact Hg]; simpl.
    + apply has_get. eauto.
    + intros ids. rewrite get_set, String.eqb_refl. now intros [= <-].
  - now apply (P_reset done comp rest).
Qed.

Lemma passes_rule (todo : list Component) :
  forall done st,
    components = done ++ todo ->
    Sound components d0 st ->
    P done st ->
    P components (fold_left (pass components) todo st).
Proof.
  induction todo as [|comp todo IH]; intros done st Hc HS HP; simpl.
  - now rewrite Hc, app_nil_r.
  - destruct (pass_rule done todo comp st Hc HS HP) as [HS' HP'].
    apply (IH (done ++ [comp])); [|assumption..].
    now rewrite <- app_assoc.
Qed.

End Rule.

Lemma start_Sound (order : list Component) (e0 : ErrorMap)
  (ent : list EntityData) :
  Sound order (index [] ent) (start e0 ent).
Proof.
  split; [split| | |]; simpl; try easy.
  - apply seed_NoDup.
  - apply seed_has.
  - intros [|i] j ev ev' _ Hi; discriminate.
Qed.

(** What holds at the start and is kept by [passed[comp.KEY] = []] and by
    every turn of the loop over the entries holds when
    [resolveEntities] returns. *)
Lemma run_rule (registry order : list Component) (e0 : ErrorMap)
  (ent : list EntityData) (st : Run)
  (P : list Component -> Run -> Prop) :
  all registry = Some order ->
  resolveEntities_run registry e0 ent = Some st ->
  (forall done comp rest s,
     order = done ++ comp :: rest ->
     Sound order (index [] ent) s ->
     P done s -> P (done ++ [comp]) (reset comp s)) ->
  (forall done comp rest s k v,
     order = done ++ comp :: rest ->
     Sound order (index [] ent) s ->
     fresh comp s k ->
     get k (out s) = Some v ->
     P (done ++ [comp]) s ->
     P (done ++ [comp]) (visit order comp s (k, v))) ->
  P [] (start e0 ent) ->
  P order st.
Proof.
  intros Ho Hrun Hreset Hvisit H0.
  rewrite (run_start registry order e0 ent Ho) in Hrun.
  injection Hrun as <-.
  apply (passes_rule order (index [] ent) P Hreset Hvisit order []);
    [reflexivity | apply start_Sound | assumption].
Qed.

End Rules.

(* ================================================================== *)
(** ** What the passes do to the entities *)

Module Passes.
Import JS JSFacts ObjFacts Comp Order Schema Resolution Runs Rules.

Lemma seed_loop_in (l : list string) (o : Manifest) (k : string) :
  In k l \/ has k o = true ->
  has k (fold_left (fun out key => set key [] out) l o) = true.
Proof.
  revert o. induction l as [|k' l IH]; intros o H; simpl.
  - destruct H as [[]|H]. exact H.
  - apply IH. destruct H as [[<-|H]|H].
    + right. unfold has. now rewrite get_set, String.eqb_refl.
    + now left.
    + right. unfold has in *. rewrite get_set.
      destruct (String.eqb k k'); [reflexivity | exact H].
Qed.

Lemma seed_has_iff (d : EntityMap) (k : string) :
  has k (seed d) = true <-> has k d = true.
Proof.
  split; [apply seed_has|]. intros H. apply seed_loop_in. left.
  now apply keys_In.
Qed.

Lemma index_has (ent : list EntityData) (d : EntityMap) (k : string) :
  has k (index d ent) = true <->
  has k d = true \/ exists e, In e ent /\ toString (field "id" e) = k.
Proof.
  revert d. induction ent as [|e ent IH]; intros d; simpl.
  - split; [tauto | intros [H|(e & [] & _)]; exact H].
  - destruct (get (toString (field "id" e)) d) eqn:E; rewrite IH.
    + split.
      * intros [H|(x & Hx & Ex)]; [tauto | right; exists x; tauto].
      * intros [H|(x & [<-|Hx] & Ex)]; [tauto | | right; eauto].
        left. apply has_get. rewrite <- Ex. eauto.
    + unfold has at 1. rewrite get_set.
      destruct (String.eqb_spec k (toString (field "id" e))) as [->|Hne].
      * split; [intros _; right; exists e; tauto | tauto].
      * fold (has k d). split.
        -- intros [H|(x & Hx & Ex)]; [tauto | right; exists x; tauto].
        -- intros [H|(x & [<-|Hx] & Ex)]; [tauto | congruence | eauto].
Qed.

(** An entity is removed by a call that threw only. *)
Lemma run_survivors (registry order : list Component) (e0 : ErrorMap)
  (ent : list EntityData) (st : Run) :
  all registry = Some order ->
  resolveEntities_run registry e0 ent = Some st ->
  forall k, has k (index [] ent) = true ->
    has k (out st) = true
    \/ exists ev, In ev (visited st) /\ ev_id ev = k /\ ev_thrown ev <> None.
Proof.
  intros Ho Hrun.
  apply (run_rule registry order e0 ent st
           (fun _ s => forall k, has k (index [] ent) = true ->
              has k (out s) = true
              \/ exists ev, In ev (visited s) /\ ev_id ev = k
                            /\ ev_thrown ev <> None) Ho Hrun).
  - intros done comp rest s _ _ Hs. exact Hs.
  - intros done comp rest s k v _ _ _ _ Hs k' Hk'.
    destruct (visit_spec order comp s k v)
      as (ev & p & Hv & _ & Hi & _ & _ & _ & Hout).
    rewrite Hv.
    destruct (Hs k' Hk') as [Hh|(ev' & Hin & E & Ht)].
    + remember (ev_thrown ev) as t eqn:Et.
      destruct Hout as [parent' _ _ E _ | msg _ _ E _]; rewrite E.
      * left. now rewrite has_update.
      * rewrite has_delete.
        destruct (String.eqb_spec k' k) as [->|Hne]; [|now left].
        right. exists ev. split; [apply in_or_app; right; now left|].
        split; [assumption | congruence].
    + right. exists ev'. split; [apply in_or_app; now left | tauto].
  - intros k Hk. left. simpl. now apply seed_has_iff.
Qed.

Lemma thrown_holds (evs : list Event) (ev : Event) :
  In ev evs -> ev_thrown ev <> None ->
  exists msg, In (ev_id ev, msg) (thrown evs).
Proof.
  intros Hin Ht. destruct (ev_thrown ev) as [msg|] eqn:E; [|congruence].
  exists msg. unfold thrown. apply in_flat_map. exists ev.
  split; [assumption|]. rewrite E. now left.
Qed.

(** [c] has none of the four hooks. *)
Definition hookless (c : Component) : Prop :=
  trigger c = None /\ getData c = None
  /\ process c = None /\ transform c = None.


Lemma seed_loop_get (l : list string) (o : Manifest) (k : string)
  (e : Entity) :
  (forall k' e', get k' o = Some e' -> e' = []) ->
  get k (fold_left (fun out key => set key [] out) l o) = Some e -> e = [].
Proof.
  revert o. induction l as [|k0 l IH]; intros o Ho; simpl; [apply Ho|].
  apply IH. intros k' e'. rewrite get_set.
  destruct (String.eqb k' k0); [now intros [= <-] | apply Ho].
Qed.









(** What a component without hooks leaves in the parent when its call
    returns: the value the record holds at the component's key, put at
    that key unless it is [undefined]. *)
Definition defaulted (c : Component) (o : EntityData) (parent : Entity)
  : Entity :=
  match get (KEY c) o with
  | Some x => if is_undefined x then parent else set (KEY c) x parent
  | None => parent
  end.

Lemma resolve_default (c : Component) (ctx ctx' : Context.t) :
  hookless c ->
  resolve c ctx = (ctx', Ok tt) ->
  exists o,
    Context.data ctx = Some o
    /\ Context.parent ctx' = defaulted c o (Context.parent ctx).
Proof.
  intros (Ht & Hg & Hp & Hf). unfold resolve, defaulted.
  rewrite Ht, Hg, Hp, Hf.
  unfold or_default, bind, call, ret, mark_passed, check_requires,
    apply_transform, default_trigger, default_getData, default_process,
    default_transform.
  destruct (Context.data ctx) as [o|] eqn:Ed; [|discriminate].
  destruct (has (KEY c) o) eqn:Eh.
  - destruct (get (KEY c) (Context.passed ctx)) as [ids|]; [|discriminate].
    apply has_get in Eh. destruct Eh as [x Ex].
    destruct (REQUIRES c) as [rs|];
      [destruct (unmet rs _ _); [discriminate|]|];
      cbn [Context.data Context.with_passed]; rewrite Ed, Ex;
      (destruct (is_undefined x) eqn:Eu; simpl; intros [= <-]; exists o;
       rewrite Ex, Eu; auto).
  - intros [= <-]. exists o. apply has_false in Eh. rewrite Eh. auto.
Qed.

Lemma get_defaulted (c : Component) (o : EntityData) (parent : Entity)
  (key : string) :
  get key (defaulted c o parent)
  = if String.eqb key (KEY c) then
      match get (KEY c) o with
      | Some x => if is_undefined x then get key parent else Some x
      | None => get key parent
      end
    else get key parent.
Proof.
  unfold defaulted. destruct (get (KEY c) o) as [x|].
  - destruct (is_undefined x); [now destruct (String.eqb key (KEY c))|].
    apply get_set.
  - now destruct (String.eqb key (KEY c)).
Qed.


Section Hookless.

Variables (registry order : list Component) (e0 : ErrorMap).
Variables (ent : list EntityData) (st : Run).
Hypothesis Hall : all registry = Some order.
Hypothesis Hrun : resolveEntities_run registry e0 ent = Some st.
Hypothesis Hplain : forall c, In c order -> hookless c.

(** What an entity holds it has from its record, at the key of a
    component of the order. *)
Lemma hookless_only (k key : string) (e : Entity) (v : Value) :
  get k (out st) = Some e -> get key e = Some v ->
  (exists c, In c order /\ KEY c = key)
  /\ v <> VUndefined
  /\ exists r, get k (index [] ent) = Some r /\ get key r = Some v.
Proof.
  revert k key e v.
  apply (run_rule registry order e0 ent st
           (fun _ s => forall k key e v,
              get k (out s) = Some e -> get key e = Some v ->
              (exists c, In c order /\ KEY c = key)
              /\ v <> VUndefined
              /\ exists r, get k (index [] ent) = Some r
                           /\ get key r = Some v) Hall Hrun).
  - intros done comp rest s _ _ Hs. exact Hs.
  - intros done comp rest s k0 v0 Hord HS _ Hcur Hs k key e v.
    assert (Hin : In comp order).
    { rewrite Hord. apply in_or_app. right. now left. }
    pose proof (resolve_default comp (context order s k0 v0)) as Hres.
    pose proof (resolve_effect comp (context order s k0 v0)) as [Hid _].
    unfold visit.
    destruct (resolve comp (context order s k0 v0)) as [ctx' [[]|err]];
      simpl in *.
    + rewrite get_update.
      destruct (String.eqb_spec k k0) as [->|Hne]; [|apply Hs].
      rewrite (proj2 (has_get k0 (out s))) by eauto. intros [= <-].
      destruct (Hres ctx' (Hplain comp Hin) eq_refl) as (o & Hd & ->).
      rewrite get_defaulted.
      destruct (String.eqb_spec key (KEY comp)) as [->|Hnk];
        [|now apply Hs].
      destruct (get (KEY comp) o) as [x|] eqn:Ex; [|now apply Hs].
      destruct (is_undefined x) eqn:Eu; [now apply Hs|].
      intros [= <-]. split; [eauto|]. split.
      * intros ->. discriminate.
      * exists o. split; [|assumption].
        now apply (wf_d _ _ (sound_wf _ _ _ HS)).
    + rewrite Hid, get_delete.
      destruct (String.eqb k k0); [discriminate | apply Hs].
  - intros k key e v Hk. simpl in Hk.
    apply seed_loop_get in Hk; [|discriminate]. now subst.
Qed.



End Hookless.


(** What the [catch] has done for a call that threw, in the run of the
    components [order]: the error is under the id of the entity; as the
    [catch] left them, [out] and [d] have no entry for the id and no
    passed-set holds it; no later call is on the entity, which the final
    manifest lacks. *)
Lemma thrown_evicted (order : list Component) (e0 : ErrorMap)
  (ent : list EntityData) (i : nat) (ev : Event) (msg : string) :
  let st := fold_left (pass order) order (start e0 ent) in
  nth_error (visited st) i = Some ev ->
  ev_thrown ev = Some msg ->
  (exists es, get (ev_id ev) (errors st) = Some es /\ In msg es)
  /\ has (ev_id ev) (out (ev_after ev)) = false
  /\ has (ev_id ev) (d (ev_after ev)) = false
  /\ (forall key ids,
        get key (passed (ev_after ev)) = Some ids -> ~ In (ev_id ev) ids)
  /\ (forall j ev', i < j -> nth_error (visited st) j = Some ev' ->
                    ev_id ev' <> ev_id ev)
  /\ has (ev_id ev) (out st) = false.
Proof.
  intros st Hi Ht.
  assert (HS : Sound order (index [] ent) st).
  { apply passes_Sound; [apply incl_refl | apply start_Sound]. }
  assert (He : errors st = report (thrown (visited st))
                             (report (duplicates [] ent) e0)).
  { apply (passes_Logged order). reflexivity. }
  assert (Hin : In ev (visited st)) by (eapply nth_error_In; eassumption).
  assert (Hth : ev_thrown ev <> None) by congruence.
  destruct (sound_gone _ _ _ HS ev Hin Hth) as [(G1 & G2 & G3) Hout].
  split; [|repeat (split; [assumption|]); split; [|assumption]].
  - rewrite He. apply report_In. unfold thrown. apply in_flat_map.
    exists ev. split; [assumption|]. rewrite Ht. now left.
  - intros j ev' Hij Hj. now apply (sound_once _ _ _ HS i j).
Qed.

End Passes.

(* ================================================================== *)
(** ** Hooks that throw any value, and hooks that throw texts *)

Module RawFacts.
Import JS JSFacts ObjFacts Comp Order Schema Resolution Runs Rules.
Import Passes.

Lemma erase_lift {A : Type} (r : Result A) :
  Raw.erase_completion (Raw.lift r) = r.
Proof. now destruct r. Qed.

(** The computation [m], with hooks that throw texts, does what [rm]
    does when each thrown value is told by [String(err)]. *)
Definition told_as {A : Type} (m : M A) (rm : Raw.M A) : Prop :=
  forall ctx,
    m ctx = (fst (rm ctx), Raw.erase_completion (snd (rm ctx))).

Lemma told_bind {A B : Type} (m : M A) (rm : Raw.M A) (f : A -> M B)
  (rf : A -> Raw.M B) :
  told_as m rm -> (forall a, told_as (f a) (rf a)) ->
  told_as (bind m f) (Raw.bind rm rf).
Proof.
  intros Hm Hf ctx. unfold bind, Raw.bind. rewrite Hm.
  destruct (rm ctx) as [ctx' [a|t]]; simpl; [apply Hf | reflexivity].
Qed.

Lemma told_ret {A : Type} (a : A) : told_as (ret a) (Raw.ret a).
Proof. intros ctx. reflexivity. Qed.

Lemma told_call {A : Type} (h : Context.t -> Result A)
  (rh : Context.t -> Raw.Completion A) :
  (forall ctx, h ctx = Raw.erase_completion (rh ctx)) ->
  told_as (call h) (Raw.call rh).
Proof. intros H ctx. unfold call, Raw.call. simpl. now rewrite H. Qed.

Lemma told_step {A : Type} (m : M A) : told_as m (Raw.step m).
Proof.
  intros ctx. unfold Raw.step. destruct (m ctx) as [ctx' r]. simpl.
  now rewrite erase_lift.
Qed.

Lemma told_transform (t : Value -> Context.t -> Result Entity)
  (rt : Value -> Context.t -> Raw.Completion Entity) (o : Value) :
  (forall ctx, t o ctx = Raw.erase_completion (rt o ctx)) ->
  told_as (apply_transform t o) (Raw.apply_transform rt o).
Proof.
  intros H ctx. unfold apply_transform, Raw.apply_transform. rewrite H.
  now destruct (rt o ctx).
Qed.

(** A call of [Component.resolve] does, with hooks that throw any value,
    what it does when each thrown value is told by [String(err)]. *)
Lemma resolve_erase (c : Raw.Component) :
  told_as (resolve (Raw.erase c)) (Raw.resolve c).
Proof.
  unfold resolve, Raw.resolve.
  cbn [trigger getData process transform Raw.erase].
  apply told_bind.
  { apply told_call. intros ctx.
    destruct (Raw.trigger c); simpl; [reflexivity|].
    now rewrite erase_lift. }
  intros [|]; [|apply told_ret].
  apply told_bind; [apply told_step|]. intros _.
  apply told_bind; [apply told_step|]. intros _.
  apply told_bind.
  { apply told_call. intros ctx.
    destruct (Raw.getData c); simpl; [reflexivity|].
    now rewrite erase_lift. }
  intros cData. apply told_bind.
  { apply told_call. intros ctx.
    destruct (Raw.process c); simpl; reflexivity. }
  intros o. destruct (negb (is_undefined o)); [|apply told_ret].
  apply told_transform. intros ctx.
  destruct (Raw.transform c); simpl; reflexivity.
Qed.

Lemma visit_erase (comps : list Raw.Component) (comp : Raw.Component)
  (st st' : Run) (kv : string * Entity) :
  Raw.visit comps comp st kv = Raw.Ran st' ->
  visit (map Raw.erase comps) (Raw.erase comp) st kv = st'.
Proof.
  destruct kv as [k v]. unfold Raw.visit, visit. rewrite resolve_erase.
  destruct (Raw.resolve comp (context (map Raw.erase comps) st k v))
    as [ctx' [[]|[err|what]]]; simpl; [| |discriminate];
    now intros [= <-].
Qed.

Lemma escaped_entries (comps : list Raw.Component) (comp : Raw.Component)
  (es : list (string * Entity)) (st : Run) (err : string) :
  fold_left
    (fun o kv => Raw.and_then o (fun s => Raw.visit comps comp s kv))
    es (Raw.Escaped st err)
  = Raw.Escaped st err.
Proof. induction es as [|kv es IH]; simpl; [reflexivity | exact IH]. Qed.

Lemma entries_erase (comps : list Raw.Component) (comp : Raw.Component)
  (es : list (string * Entity)) (st st' : Run) :
  fold_left
    (fun o kv => Raw.and_then o (fun s => Raw.visit comps comp s kv))
    es (Raw.Ran st)
  = Raw.Ran st' ->
  fold_left (visit (map Raw.erase comps) (Raw.erase comp)) es st = st'.
Proof.
  revert st. induction es as [|kv es IH]; intros st; cbn [fold_left].
  - now intros [= <-].
  - cbn [Raw.and_then].
    destruct (Raw.visit comps comp st kv) as [s1|s1 err] eqn:E.
    + rewrite (visit_erase _ _ _ _ _ E). apply IH.
    + rewrite escaped_entries. discriminate.
Qed.

Lemma pass_erase (comps : list Raw.Component) (comp : Raw.Component)
  (st st' : Run) :
  Raw.pass comps st comp = Raw.Ran st' ->
  pass (map Raw.erase comps) st (Raw.erase comp) = st'.
Proof. unfold Raw.pass, pass. apply entries_erase. Qed.

Lemma escaped_passes (comps todo : list Raw.Component) (st : Run)
  (err : string) :
  fold_left (fun o comp => Raw.and_then o (fun s => Raw.pass comps s comp))
    todo (Raw.Escaped st err)
  = Raw.Escaped st err.
Proof. induction todo as [|c todo IH]; simpl; [reflexivity | exact IH]. Qed.

Lemma passes_erase (comps todo : list Raw.Component) (st st' : Run) :
  fold_left (fun o comp => Raw.and_then o (fun s => Raw.pass comps s comp))
    todo (Raw.Ran st)
  = Raw.Ran st' ->
  fold_left (pass (map Raw.erase comps)) (map Raw.erase todo) st = st'.
Proof.
  revert st. induction todo as [|c todo IH]; intros st; cbn [fold_left map].
  - now intros [= <-].
  - cbn [Raw.and_then].
    destruct (Raw.pass comps st c) as [s1|s1 err] eqn:E.
    + rewrite (pass_erase _ _ _ _ E). apply IH.
    + rewrite escaped_passes. discriminate.
Qed.

(** A run that no exception leaves is, call for call, the run of the
    components with each thrown value told by its text. *)
Lemma run_erase (comps : list Raw.Component) (e0 : ErrorMap)
  (ent : list EntityData) (st : Run) :
  Raw.resolveEntities_run comps e0 ent = Raw.Ran st ->
  fold_left (pass (map Raw.erase comps)) (map Raw.erase comps)
    (start e0 ent) = st.
Proof.
  unfold Raw.resolveEntities_run. rewrite index_record_fold.
  apply passes_erase.
Qed.

End RawFacts.

(* ================================================================== *)
(** ** Example registries and records *)

Module Examples.
Import JS.

(** A component with no hooks and no flags. *)
Definition plain (key : string) (requires wait_for : option (list string))
  : Component :=
  {| desc := {| KEY := key; REQUIRES := requires; OPTIONAL := None;
                SUPPRESS_TYPE := None; HOIST := None; SINK := None;
                WAIT_FOR := wait_for |};
     trigger := None; getData := None; process := None;
     transform := None |}.

(** The same, with flags; [suppress] also tells apart two components
    that carry one key. *)
Definition flagged (key : string) (wait_for : option (list string))
  (hoist sink suppress : option bool) : Component :=
  {| desc := {| KEY := key; REQUIRES := None; OPTIONAL := None;
                SUPPRESS_TYPE := suppress; HOIST := hoist; SINK := sink;
                WAIT_FOR := wait_for |};
     trigger := None; getData := None; process := None;
     transform := None |}.

Definition brief : Component := plain "brief" None None.


(** A component that requires a key no component carries. *)
Definition damage : Component := plain "damage" None None.
Definition weapon : Component := plain "weapon" (Some ["damage"]) None.
Definition orphan : Component :=
  plain "orphan" (Some ["damage"; "missing"]) None.
Definition dangling : list Component := [damage; orphan].

(** Two components with one key, the first of which waits for ever. *)
Definition twin_stuck : Component :=
  {| desc := {| KEY := "a"; REQUIRES := Some ["missing"]; OPTIONAL := None;
                SUPPRESS_TYPE := Some true; HOIST := None; SINK := None;
                WAIT_FOR := None |};
     trigger := None; getData := None; process := None;
     transform := None |}.
Definition twin_free : Component := plain "a" None None.
Definition needs_a : Component := plain "b" (Some ["a"]) None.
Definition twins : list Component := [twin_stuck; twin_free; needs_a].

(** Two components with one key, both free. *)
Definition twin_first : Component :=
  flagged "a" None None None (Some true).
Definition doubles : list Component := [twin_first; twin_free; needs_a].

(** Two hoisted components with one key, the second of which waits for a
    component that is not hoisted. *)
Definition hoist_first : Component :=
  flagged "h" None (Some true) None None.
Definition hoist_late : Component :=
  flagged "h" (Some ["w"]) (Some true) None None.
Definition comp_w : Component := plain "w" None None.
Definition comp_n : Component := plain "n" None None.
Definition hoists : list Component :=
  [hoist_first; hoist_late; comp_w; comp_n].

(** A hoisted and a sunk component among plain ones. *)
Definition sunk : Component := flagged "s" None None (Some true) None.
Definition hoisted : Component := flagged "h" None (Some true) None None.
Definition mixed : list Component := [sunk; damage; weapon; hoisted].

Definition record_x : EntityData :=
  [("id", VStr "x"); ("brief", VStr "short text")].
Definition record_xa : EntityData :=
  [("id", VStr "x"); ("brief", VStr "short text"); ("a", VNum 1)].
Definition sword : EntityData :=
  [("id", VStr "sword"); ("name", VStr "Sword"); ("weapon", VStr "slashing")].
Definition first_a : EntityData :=
  [("id", VStr "a"); ("name", VStr "First"); ("damage", VNum 3)].
Definition second_a : EntityData :=
  [("id", VStr "a"); ("name", VStr "Second")].

End Examples.

(* ================================================================== *)
(** ** The order of the components *)

Module OrderClaims.
Import JS Comp Order Schema Runs Examples.

(** The claim of C2 as it is written: [a] is placed strictly before [b]
    in the order, both being in it. *)
Definition strictly_before (order : list Component) (a b : Component)
  : Prop :=
  exists i j, i < j /\ nth_error order i = Some a /\ nth_error order j = Some b.

Definition respects_dependencies (registry : list Component) : Prop :=
  forall order a b,
    all registry = Some order ->
    In a registry -> In b registry -> In (KEY a) (named b) ->
    strictly_before order a b.

(** C2, counterexample.  With [damage] registered and [orphan] requiring
    both "damage" and a key no one carries, the order is [damage] alone:
    [orphan] is placed nowhere.  With two components of key "a"
    registered before one that requires "a", the order is second "a",
    "b", first "a": the first "a" comes after the component that names
    its key. *)
Lemma order_ignores_dependencies :
  ~ respects_dependencies dangling /\ ~ respects_dependencies doubles.
Proof.
  split; intros H.
  - destruct (H [damage] damage orphan eq_refl) as (i & j & Hij & Hi & Hj);
      [simpl; tauto | simpl; tauto | simpl; tauto |].
    destruct j as [|[|j]]; simpl in Hj; discriminate.
  - destruct (H [twin_free; needs_a; twin_first] twin_first needs_a eq_refl)
      as (i & j & Hij & Hi & Hj);
      [simpl; tauto | simpl; tauto | simpl; tauto |].
    destruct i as [|[|[|[|i]]]]; simpl in Hi; try discriminate.
    destruct j as [|[|[|[|j]]]]; simpl in Hj; try discriminate; try lia.
Qed.

(** C2, amended.  When the registered keys are pairwise distinct, for
    registered components [a] and [b] such that [b]'s REQUIRES or
    WAIT_FOR contains [a]'s KEY: wherever [b] stands in the order
    computed by [Component.all], [a] stands strictly before it. *)
Theorem order_respects_dependencies (registry order : list Component)
  (a b : Component) (j : nat) :
  distinct_keys registry ->
  all registry = Some order ->
  In a registry ->
  In (KEY a) (named b) ->
  nth_error order j = Some b ->
  exists i, i < j /\ nth_error order i = Some a.
Proof.
  intros Hd Ho Ha Hk Hj.
  apply (all_after_component registry order a b j); try assumption.
  now apply dependencies_named.
Qed.

(** In the order of [mixed], [damage] stands before [weapon], which
    requires it. *)
Lemma order_respects_dependencies_witness :
  exists i, i < 2 /\ nth_error [hoisted; damage; weapon; sunk] i = Some damage.
Proof.
  apply (order_respects_dependencies mixed _ damage weapon 2).
  - repeat constructor; simpl; intuition discriminate.
  - reflexivity.
  - simpl. tauto.
  - simpl. tauto.
  - reflexivity.
Defined.

(** The claim of C6 on an order. *)
Definition hoist_sink_placed (order : list Component) : Prop :=
  (forall i j h n,
     nth_error order i = Some h -> nth_error order j = Some n ->
     truthy (HOIST h) = true -> truthy (HOIST n) = false -> i < j)
  /\ (forall i j s n,
        nth_error order i = Some s -> nth_error order j = Some n ->
        truthy (SINK s) = true -> truthy (SINK n) = false -> j < i).

(** C6, counterexample.  Two hoisted components carry the key "h", and
    the second waits for "w".  The first frees "w" and "n", which are
    not hoisted, and the second hoisted component is emitted after
    them: the order is "h", "n", "w", "h". *)
Lemma hoisted_after_plain :
  all hoists = Some [hoist_first; comp_n; comp_w; hoist_late]
  /\ ~ hoist_sink_placed [hoist_first; comp_n; comp_w; hoist_late].
Proof.
  split; [reflexivity|]. intros [H _].
  specialize (H 3 1 hoist_late comp_n eq_refl eq_refl eq_refl eq_refl). lia.
Qed.

(** C6, amended.  When the registered keys are pairwise distinct, in the
    order returned by [Component.all] every component with HOIST set
    precedes every component without HOIST, and every component with
    SINK set follows every component without SINK. *)
Theorem hoist_sink_placement (registry order : list Component) :
  distinct_keys registry ->
  all registry = Some order ->
  hoist_sink_placed order.
Proof.
  intros Hd Ho.
  assert (Hreg : forall i c, nth_error order i = Some c -> In c registry).
  { intros i c Hc. apply (all_registered registry order); [assumption|].
    eapply nth_error_In; eassumption. }
  pose proof (all_NoDup registry order Ho Hd) as Hnd.
  split.
  - intros i j h n Hi Hj Hh Hn.
    destruct (all_after_component registry order h n j) as (i' & Hlt & Hi');
      try assumption; [now apply (Hreg i) | |].
    + apply dependencies_hoist; [now apply (Hreg i) | assumption..].
    + now rewrite (distinct_keys_position order i i' h Hnd Hi Hi').
  - intros i j s n Hi Hj Hs Hn.
    destruct (all_after_component registry order n s i) as (j' & Hlt & Hj');
      try assumption; [now apply (Hreg j) | |].
    + apply dependencies_sink; [now apply (Hreg j) | assumption..].
    + now rewrite (distinct_keys_position order j j' n Hnd Hj Hj').
Qed.

(** The order of [mixed]: the hoisted component first, the sunk one
    last. *)
Lemma hoist_sink_placement_witness :
  hoist_sink_placed [hoisted; damage; weapon; sunk].
Proof.
  apply (hoist_sink_placement mixed).
  - repeat constructor; simpl; intuition discriminate.
  - reflexivity.
Defined.

End OrderClaims.

(* ================================================================== *)
(** ** Components that are never emitted *)

Module OmissionClaims.
Import JS Comp Order Schema Runs Examples.
Import Domain Passes.

(** What [resolveEntities] does with an order that lacks components:
    it runs the components of the order, and the errors it adds are the
    duplicate ids and what the calls of [resolve] threw. *)
Definition runs_without (registry : list Component)
  (absent : Component -> Prop) (e0 : ErrorMap) (ent : list EntityData)
  : Prop :=
  exists order st,
    all registry = Some order
    /\ (forall c, absent c -> ~ In c order)
    /\ resolveEntities_run registry e0 ent = Some st
    /\ (forall ev, In ev (visited st) -> ~ absent (ev_comp ev))
    /\ errors st = report (duplicates [] ent ++ thrown (visited st)) e0.

Lemma runs_without_order (registry : list Component)
  (absent : Component -> Prop) (e0 : ErrorMap) (ent : list EntityData) :
  (forall order c, all registry = Some order -> absent c -> ~ In c order) ->
  runs_without registry absent e0 ent.
Proof.
  intros H. destruct (run_Sound registry e0 ent)
    as (order & st & Ho & Hr & HS & He).
  exists order, st. split; [assumption|]. split; [eauto|].
  split; [assumption|]. split; [|assumption].
  intros ev Hev Ha. apply (H order _ Ho Ha).
  apply (sound_comp _ _ _ HS ev Hev).
Qed.







(** A registered component waits for ever: it names a key that no
    registered component carries, or the key of a component that waits
    for ever. *)
Inductive starved (registry : list Component) : Component -> Prop :=
| starved_missing (c : Component) (k : string) :
    In c registry -> In k (named c) ->
    (forall a, In a registry -> KEY a <> k) ->
    starved registry c
| starved_dep (c a : Component) :
    In c registry -> In (KEY a) (named c) -> starved registry a ->
    starved registry c.

Lemma starved_registered (registry : list Component) (c : Component) :
  starved registry c -> In c registry.
Proof. now destruct 1. Qed.

(** C10, counterexample.  [twin_stuck] requires a key that no component
    carries, and [needs_a] requires the key of [twin_stuck]; but
    [twin_free] carries that key too, and frees [needs_a], which is in
    the order. *)
Lemma dependent_not_omitted :
  starved twins needs_a
  /\ all twins = Some [twin_free; needs_a]
  /\ In needs_a [twin_free; needs_a].
Proof.
  split; [|split; [reflexivity | simpl; tauto]].
  apply (starved_dep twins needs_a twin_stuck);
    [simpl; tauto | simpl; tauto |].
  apply (starved_missing twins twin_stuck "missing");
    [simpl; tauto | simpl; tauto |].
  intros a [<-|[<-|[<-|[]]]]; discriminate.
Qed.

(** C10, amended.  If a registered component's REQUIRES or WAIT_FOR
    contains a key that equals no registered component's KEY, then that
    component is absent from the order returned by [Component.all], and
    so is, when the registered KEYs are pairwise distinct, every
    component transitively depending on it: it never runs on any entity,
    and no error or diagnostic is produced (the errors recorded are the
    duplicate ids and what the calls of [Component.resolve] threw). *)
Theorem starved_omitted (registry : list Component) (c : Component)
  (e0 : ErrorMap) (ent : list EntityData) :
  (In c registry
   /\ exists k, In k (named c) /\ forall a, In a registry -> KEY a <> k)
  \/ (distinct_keys registry /\ starved registry c) ->
  runs_without registry (fun x => x = c) e0 ent.
Proof.
  intros H. apply runs_without_order. intros order x Ho -> Hin.
  assert (Hmiss : forall b k, In b order -> In k (named b) ->
                    (forall a, In a registry -> KEY a <> k) -> False).
  { intros b k Hb Hk Hno. apply In_nth_error in Hb. destruct Hb as [j Hj].
    destruct (all_after_keys registry order j b k Ho Hj)
      as (i & a & _ & Ha & E); [now apply dependencies_named|].
    apply (Hno a); [|assumption].
    apply (all_registered registry order); [assumption|].
    eapply nth_error_In; eassumption. }
  destruct H as [(_ & k & Hk & Hno)|[Hd Hs]]; [now apply (Hmiss c k)|].
  induction Hs as [c k _ Hk Hno | c a _ Hk Hs IH]; [now apply (Hmiss c k)|].
  apply IH. apply In_nth_error in Hin. destruct Hin as [j Hj].
  destruct (all_after_component registry order a c j) as (i & _ & Hi);
    try assumption.
  - now apply starved_registered.
  - now apply dependencies_named.
  - eapply nth_error_In; eassumption.
Qed.

(** The run on [dangling], without [orphan]. *)
Lemma starved_omitted_witness :
  runs_without dangling (fun x => x = orphan) [] [first_a].
Proof.
  apply (starved_omitted dangling orphan).
  left. split; [simpl; tauto|]. exists "missing". split; [simpl; tauto|].
  intros a [<-|[<-|[]]]; discriminate.
Defined.

End OmissionClaims.

(* ================================================================== *)
(** ** The resolver: eviction, duplicates, repeated runs *)

Module ResolverClaims.
Import JS JSFacts ObjFacts Comp Order Schema Resolution Runs Examples.
Import Domain Rules Passes.

(** A component whose [process] hook throws [null], and a record on
    which its trigger passes. *)
Definition nuller : Raw.Component :=
  Raw.Make (desc (plain "note" None None)) None None
    (Some (fun _ _ => Raw.Throws (Raw.Nullish "null"))) None.

Definition note_record : EntityData :=
  [("id", VStr "x"); ("note", VStr "n")].

(** The state when the call of [resolve] for [nuller] on "x" has thrown:
    nothing removed, the pass of "note" recorded, no error. *)
Definition note_escape : Run :=
  {| locals := {| d := [("x", note_record)];
                  out := [("x", [])];
                  passed := [("note", ["x"])] |};
     errors := [];
     visited := [] |}.

(** C3, failing input.  [nuller] is the one registered component and its
    [process] hook throws [null] on the record "x".  The call of
    [Component.resolve] throws; the [catch] begins with
    [err.toString()], which throws a [TypeError] in turn, and that
    exception leaves [resolveEntities]: no manifest is returned, no error
    is recorded under "x", and "x" is still in [out], in [d] and in the
    passed-set of "note". *)
Theorem null_throw_escapes :
  all [Raw.erase nuller] = Some [Raw.erase nuller]
  /\ snd (Raw.resolve nuller
            (context [Raw.erase nuller]
               {| d := [("x", note_record)]; out := [("x", [])];
                  passed := [("note", [])] |} "x" []))
     = Raw.Throws (Raw.Nullish "null")
  /\ Raw.resolveEntities_run [nuller] clearErrors [note_record]
     = Raw.Escaped note_escape (Raw.cannot_read_of "null" "toString")
  /\ get "x" (errors note_escape) = None
  /\ has "x" (out note_escape) = true
  /\ has "x" (d note_escape) = true
  /\ get "note" (passed note_escape) = Some ["x"].
Proof. repeat split. Qed.







(** C4, counterexample.  Two runs in succession on two records of one
    id: the second run starts from the errors the first has left and
    adds the duplicate-id error to them again, so that the two error
    maps differ. *)
Lemma errors_accumulate :
  exists m e1 e2,
    resolveEntities [damage] clearErrors [first_a; second_a] = Some (m, e1)
    /\ resolveEntities [damage] e1 [first_a; second_a] = Some (m, e2)
    /\ e1 <> e2.
Proof.
  eexists; eexists; eexists.
  split; [reflexivity|]. split; [reflexivity|]. discriminate.
Qed.

(** C4, amended.  Running the resolver twice in succession on the same
    record sequence with the same registered component set produces
    identical manifests, and both runs report the same errors in the
    same order; each run adds them to the errors it finds, so that the
    error maps of the two runs are identical when [clearErrors] is
    called before each run. *)
Theorem runs_agree (registry : list Component) (ent : list EntityData) :
  exists m log,
    (forall e0, resolveEntities registry e0 ent = Some (m, report log e0))
    /\ resolveEntities registry clearErrors ent
       = Some (m, report log clearErrors).
Proof.
  destruct (run_Sound registry [] ent) as (_ & st0 & _ & Hr0 & _ & _).
  exists (out st0), (duplicates [] ent ++ thrown (visited st0)).
  assert (H : forall e0, resolveEntities registry e0 ent
               = Some (out st0,
                       report (duplicates [] ent ++ thrown (visited st0)) e0)).
  { intros e0.
    destruct (run_Sound registry e0 ent) as (_ & st & _ & Hr & _ & He).
    destruct (run_alike registry e0 [] ent ent st st0 eq_refl Hr Hr0)
      as [Hl Hv].
    unfold resolveEntities. now rewrite Hr, He, Hl, Hv. }
  split; [exact H | apply H].
Qed.

End ResolverClaims.

(* ================================================================== *)
(** ** The resolution contract *)

Module ContractClaims.
Import JS JSFacts ObjFacts Comp Order Schema Resolution Runs Examples.

Lemma unmet_Missing (rs : list string) (p : PassedMap) (id r : string) :
  unmet rs p id = Some (Missing r) ->
  exists ids, get r p = Some ids /\ includes ids id = false.
Proof.
  induction rs as [|r0 rs IH]; simpl; [discriminate|].
  destruct (get r0 p) as [ids|] eqn:E; [|discriminate].
  destruct (includes ids id) eqn:Ei; [assumption|].
  intros [= <-]. eauto.
Qed.

(** A component that lists its own key in REQUIRES, and the context of
    an entity on which no pass of that key is recorded. *)
Definition self_requiring : Component := plain "a" (Some ["a"]) None.

Definition self_ctx : Context.t :=
  {| Context.entities := [("x", record_xa)];
     Context.manifest := [("x", [])];
     Context.passed := [("a", [])];
     Context.parent := [];
     Context.id := "x";
     Context.data := Some record_xa;
     Context.components := [desc self_requiring] |}.

(** C5, counterexample.  The trigger of [self_requiring] fires on the
    entity "x", on which no pass of "a" is recorded; the call returns
    without throwing, the pass recorded and the value written. *)
Lemma self_requirement_met :
  In (KEY self_requiring) (or_empty (REQUIRES self_requiring))
  /\ default_trigger self_requiring self_ctx = Ok true
  /\ get "a" (Context.passed self_ctx) = Some []
  /\ snd (resolve self_requiring self_ctx) = Ok tt
  /\ Context.passed (fst (resolve self_requiring self_ctx)) = [("a", ["x"])]
  /\ Context.parent (fst (resolve self_requiring self_ctx))
     = [("a", VNum 1)].
Proof. repeat split. simpl. tauto. Qed.

(** C5, amended.  In the resolution contract, when a component C's
    trigger passes (and C.KEY has a passed-set), this entity's id is
    recorded in the passed-set under C.KEY first, and the requirement
    check over C.REQUIRES is performed after it, on the passed-sets that
    already hold the id: a requirement found unmet there makes the call
    throw, with the pass recorded; consequently the check never misses
    C's own KEY, and a component whose REQUIRES contains its own KEY does
    not fail with a requirement-violation naming that key. *)
Theorem pass_recorded_before_check (c : Component) (ctx : Context.t)
  (ids : list string) :
  or_default (trigger c) (default_trigger c) ctx = Ok true ->
  get (KEY c) (Context.passed ctx) = Some ids ->
  let ctx1 :=
    Context.with_passed
      (update (KEY c) (ids ++ [Context.id ctx]) (Context.passed ctx)) ctx in
  (forall rs u,
     REQUIRES c = Some rs ->
     unmet rs (Context.passed ctx1) (Context.id ctx) = Some u ->
     resolve c ctx = (ctx1, Throw (requirement_error c (Context.id ctx) u)))
  /\ (forall rs,
        REQUIRES c = Some rs ->
        unmet rs (Context.passed ctx1) (Context.id ctx)
        <> Some (Missing (KEY c))).
Proof.
  intros Ht Hg ctx1. split.
  - intros rs u Hrs Hu. unfold resolve, bind, call, mark_passed.
    rewrite Ht, Hg. fold ctx1. unfold check_requires. rewrite Hrs.
    change (Context.id ctx1) with (Context.id ctx). now rewrite Hu.
  - intros rs _ Hu. apply unmet_Missing in Hu.
    destruct Hu as (ids' & Hg' & Hi). simpl in Hg'.
    rewrite get_update, String.eqb_refl in Hg'.
    assert (Hh : has (KEY c) (Context.passed ctx) = true)
      by (apply has_get; eauto).
    rewrite Hh in Hg'. injection Hg' as <-.
    assert (includes (ids ++ [Context.id ctx]) (Context.id ctx) = true).
    { apply includes_In, in_or_app. right. now left. }
    congruence.
Qed.

Definition sword_ctx : Context.t :=
  {| Context.entities := [("sword", sword)];
     Context.manifest := [("sword", [])];
     Context.passed := [("damage", []); ("weapon", [])];
     Context.parent := [];
     Context.id := "sword";
     Context.data := Some sword;
     Context.components := [desc damage; desc weapon] |}.

(** [weapon] on the sword: the check fails for "damage", the pass of
    "weapon" recorded. *)
Lemma pass_recorded_before_check_witness :
  resolve weapon sword_ctx
  = (Context.with_passed [("damage", []); ("weapon", ["sword"])] sword_ctx,
     Throw (requirement_error weapon "sword" (Missing "damage"))).
Proof.
  destruct (pass_recorded_before_check weapon sword_ctx [] eq_refl eq_refl)
    as [H _].
  exact (H ["damage"] (Missing "damage") eq_refl eq_refl).
Defined.

(** The component [c] with another [transform] hook, or none. *)
Definition with_transform
  (t : option (Value -> Context.t -> Result Entity)) (c : Component)
  : Component :=
  {| desc := desc c; trigger := trigger c; getData := getData c;
     process := process c; transform := t |}.

(** C9.  For every component and entity, if the process step returns
    [undefined]: the transform step is not invoked, the call being the
    same whatever the [transform] hook is; the call returns without
    throwing and leaves the entity as it was; and the turn of the
    resolver that makes the call leaves the manifest, the working map
    and the errors as they were: the entity is not evicted. *)
Theorem undefined_writes_nothing (c : Component) (ctx ctx1 : Context.t)
  (cData : Value) :
  or_default (trigger c) (default_trigger c) ctx = Ok true ->
  mark_passed c ctx = (ctx1, Ok tt) ->
  check_requires c ctx1 = (ctx1, Ok tt) ->
  or_default (getData c) (default_getData c) ctx1 = Ok cData ->
  or_default (process c) default_process cData ctx1 = Ok VUndefined ->
  (forall t, resolve (with_transform t c) ctx = (ctx1, Ok tt))
  /\ resolve c ctx = (ctx1, Ok tt)
  /\ Context.parent ctx1 = Context.parent ctx
  /\ forall components (st : Run) k v,
       ctx = context components st k v ->
       get k (out st) = Some v ->
       out (visit components c st (k, v)) = out st
       /\ d (visit components c st (k, v)) = d st
       /\ errors (visit components c st (k, v)) = errors st.
Proof.
  intros Ht Hm Hc Hg Hp.
  assert (Hall : forall t, resolve (with_transform t c) ctx = (ctx1, Ok tt)).
  { intros t. unfold resolve, bind, call. simpl.
    change (mark_passed (with_transform t c)) with (mark_passed c).
    change (check_requires (with_transform t c)) with (check_requires c).
    change (default_trigger (with_transform t c)) with (default_trigger c).
    change (default_getData (with_transform t c)) with (default_getData c).
    now rewrite Ht, Hm, Hc, Hg, Hp. }
  assert (Hres : resolve c ctx = (ctx1, Ok tt)).
  { rewrite <- (Hall (transform c)). now destruct c. }
  assert (Hpar : Context.parent ctx1 = Context.parent ctx).
  { unfold mark_passed in Hm.
    destruct (get (KEY c) (Context.passed ctx)); [|discriminate].
    now injection Hm as <-. }
  split; [exact Hall|]. split; [exact Hres|]. split; [exact Hpar|].
  intros components st k v -> Hout. unfold visit. rewrite Hres. simpl.
  rewrite Hpar. simpl. rewrite (update_same k v (out st) Hout). auto.
Qed.

(** A component whose [process] returns [undefined]. *)
Definition silent : Component :=
  {| desc := desc (plain "note" None None);
     trigger := None; getData := None;
     process := Some (fun _ _ => Ok VUndefined);
     transform := None |}.

Definition noted : Run :=
  {| locals := {| d := [("x", [("id", VStr "x"); ("note", VStr "n")])];
                  out := [("x", [("brief", VStr "short text")])];
                  passed := [("note", [])] |};
     errors := []; visited := [] |}.

(** The turn of the resolver for [silent] on the entity "x". *)
Lemma undefined_writes_nothing_witness :
  out (visit [silent] silent noted ("x", [("brief", VStr "short text")]))
  = out noted
  /\ d (visit [silent] silent noted ("x", [("brief", VStr "short text")]))
     = d noted
  /\ errors (visit [silent] silent noted ("x", [("brief", VStr "short text")]))
     = errors noted.
Proof.
  destruct (undefined_writes_nothing silent
              (context [silent] noted "x" [("brief", VStr "short text")])
              (Context.with_passed [("note", ["x"])]
                 (context [silent] noted "x" [("brief", VStr "short text")]))
              (VStr "n") eq_refl eq_refl eq_refl eq_refl eq_refl)
    as (_ & _ & _ & H).
  exact (H [silent] noted "x" _ eq_refl eq_refl).
Defined.

(** A component that names no key waits, alone in the registry, for
    nothing. *)
Lemma dependencies_alone (c : Component) :
  named c = [] -> dependencies [c] c = [].
Proof.
  unfold named, dependencies. intros H. apply app_eq_nil in H.
  destruct H as [-> ->]. simpl.
  destruct (truthy (HOIST c)) eqn:Eh, (truthy (SINK c)) eqn:Es; simpl;
    rewrite ?Eh, ?Es; reflexivity.
Qed.

Lemma all_alone (c : Component) : named c = [] -> all [c] = Some [c].
Proof.
  intros H. unfold all, initial. simpl. now rewrite (dependencies_alone c H).
Qed.

Lemma entries_one {V : Type} (k : string) (v : V) :
  entries [(k, v)] = [(k, v)].
Proof. unfold entries. simpl. now destruct (is_index (k, v)). Qed.

(** C8.  For a component with no custom hooks and KEY "brief", alone in
    the registry, resolving the record with an id and the value [v] at
    "brief" yields the manifest whose entity of that id holds [v] at
    "brief", and no error: the trigger fires because the KEY is in the
    record, and the value passes through unchanged. *)
Theorem passthrough_default (c : Component) (e0 : ErrorMap) (i : string)
  (v : Value) :
  KEY c = "brief" ->
  trigger c = None -> getData c = None ->
  process c = None -> transform c = None ->
  named c = [] ->
  v <> VUndefined ->
  resolveEntities [c] e0 [[("id", VStr i); ("brief", v)]]
  = Some ([(i, [("brief", v)])], e0).
Proof.
  intros HK Ht Hg Hp Hf Hn Hv.
  set (r := [("id", VStr i); ("brief", v)]).
  assert (Hr : REQUIRES c = None \/ REQUIRES c = Some []).
  { unfold named in Hn. apply app_eq_nil in Hn. destruct Hn as [Hn _].
    destruct (REQUIRES c) as [[|q qs]|]; simpl in Hn;
      [tauto | discriminate | tauto]. }
  assert (Hu : negb (is_undefined v) = true) by now destruct v.
  set (st0 := {| locals := {| d := [(i, r)]; out := [(i, [])];
                              passed := [] |};
                 errors := e0; visited := [] |}).
  set (st1 := {| locals := {| d := [(i, r)]; out := [(i, [])];
                              passed := [("brief", [])] |};
                 errors := e0; visited := [] |}).
  (* the call of [resolve] on the one entity *)
  assert (Hres : resolve c (context [c] st1 i [])
                 = (Context.with_parent [("brief", v)]
                      (Context.with_passed [("brief", [i])]
                         (context [c] st1 i [])),
                    Ok tt)).
  { unfold resolve, bind, call, mark_passed, check_requires.
    rewrite Ht, Hg, Hp, Hf.
    unfold or_default, default_trigger, default_getData, default_process,
      apply_transform, default_transform, context.
    simpl. rewrite String.eqb_refl, !HK. subst r. simpl.
    destruct Hr as [-> | ->]; simpl; rewrite Hu; reflexivity. }
  assert (Hrun : resolveEntities_run [c] e0 [r] = Some (pass [c] st0 c)).
  { unfold resolveEntities_run. rewrite (all_alone c Hn).
    replace (fold_left index_record [r] ([], e0)) with ([(i, r)], e0)
      by reflexivity.
    replace (seed [(i, r)]) with [(i, @nil (string * Value))]
      by (unfold seed, keys; now rewrite entries_one).
    reflexivity. }
  assert (Hpass : pass [c] st0 c = visit [c] c st1 (i, [])).
  { unfold pass. simpl. now rewrite entries_one, HK. }
  unfold resolveEntities. rewrite Hrun, Hpass. unfold visit.
  rewrite Hres. simpl. now rewrite String.eqb_refl.
Qed.

(** [brief] on the record with id "x" and "short text" at "brief". *)
Lemma passthrough_default_witness :
  resolveEntities [brief] [] [record_x]
  = Some ([("x", [("brief", VStr "short text")])], []).
Proof.
  apply (passthrough_default brief [] "x" (VStr "short text"));
    try reflexivity.
  discriminate.
Defined.

End ContractClaims.

(* ================================================================== *)
(** ** Further properties: the registry and the order *)

Module RegistryFacts.
Import Registry.

Section Register.

Context {Ref : Type} (same : Ref -> Ref -> bool).
Hypothesis same_spec : forall a b, same a b = true <-> a = b.

Lemma member_In (l : list Ref) (c : Ref) :
  existsb (same c) l = true <-> In c l.
Proof.
  rewrite existsb_exists. split.
  - intros (x & Hx & E). apply same_spec in E. now subst.
  - intros H. exists c. split; [assumption | now apply same_spec].
Qed.

Lemma register_cases (l : list Ref) (c : Ref) :
  (In c l /\ register same l c = l)
  \/ (~ In c l /\ register same l c = l ++ [c]).
Proof.
  unfold register. destruct (existsb (same c) l) eqn:E; simpl.
  - left. split; [now apply member_In | reflexivity].
  - right. split; [|reflexivity]. intros H. apply member_In in H.
    congruence.
Qed.

Lemma register_NoDup (l : list Ref) (c : Ref) :
  NoDup l -> NoDup (register same l c).
Proof.
  intros H. destruct (register_cases l c) as [[_ ->]|[Hc ->]];
    [assumption|].
  apply NoDup_app; [assumption | repeat constructor; easy |].
  intros x Hx [<-|[]]. contradiction.
Qed.

(** X1.  Whatever components are registered, in whatever order and how
    many times each: the list stays free of repetitions, what was in it
    stays where it was, the list holds what it held and what was
    registered, and registering again a component of the list changes
    nothing.  A component that is not in the list is appended, whatever
    its KEY. *)
Theorem registrations_kept_once (list0 cs : list Ref) :
  NoDup list0 ->
  let l := fold_left (register same) cs list0 in
  NoDup l
  /\ (exists added, l = list0 ++ added)
  /\ (forall c, In c l <-> In c list0 \/ In c cs)
  /\ (forall c, In c l -> register same l c = l)
  /\ (forall c, ~ In c l -> register same l c = l ++ [c]).
Proof.
  intros Hnd l.
  assert (H : NoDup l /\ (exists added, l = list0 ++ added)
              /\ forall c, In c l <-> In c list0 \/ In c cs).
  { subst l. revert list0 Hnd.
    induction cs as [|c cs IH]; intros list0 Hnd; simpl.
    - split; [assumption|]. split; [exists []; now rewrite app_nil_r|].
      tauto.
    - destruct (IH _ (register_NoDup list0 c Hnd)) as (H1 & [added H2] & H3).
      split; [assumption|]. split.
      + rewrite H2. destruct (register_cases list0 c) as [[_ ->]|[_ ->]];
          [eauto|]. exists (c :: added). now rewrite <- app_assoc.
      + intros x. rewrite H3.
        destruct (register_cases list0 c) as [[Hc ->]|[_ ->]].
        * split; [tauto|]. intros [H|[<-|H]]; tauto.
        * rewrite in_app_iff. simpl. tauto. }
  destruct H as (H1 & H2 & H3). repeat (split; [assumption|]). split.
  - intros c Hc. destruct (register_cases l c) as [[_ E]|[Hn _]];
      [assumption | contradiction].
  - intros c Hc. destruct (register_cases l c) as [[Hn _]|[_ E]];
      [contradiction | assumption].
Qed.

End Register.

(** Components as numbered objects: the second and the first, then the
    second again. *)
Lemma registrations_kept_once_witness :
  NoDup (fold_left (register Nat.eqb) [2; 1; 2] [])
  /\ fold_left (register Nat.eqb) [2; 1; 2] [] = [2; 1].
Proof.
  destruct (registrations_kept_once Nat.eqb Nat.eqb_eq [] [2; 1; 2])
    as (H & _); [constructor|].
  split; [exact H | reflexivity].
Defined.

End RegistryFacts.

Module OrderExtras.
Import JS JSFacts ObjFacts Comp Order Examples.

(** X2.  The dependency set of a component holds no key twice, and holds
    exactly: the keys of its WAIT_FOR and of its REQUIRES; if it is not
    hoisted, the keys of the registered components that are; and if it
    is sunk, the keys of the registered components that are not. *)
Theorem dependencies_are (registry : list Component) (c : Component) :
  NoDup (dependencies registry c)
  /\ forall k,
       In k (dependencies registry c) <->
       In k (or_empty (WAIT_FOR c))
       \/ In k (or_empty (REQUIRES c))
       \/ (truthy (HOIST c) = false
           /\ exists h, In h registry /\ truthy (HOIST h) = true /\ KEY h = k)
       \/ (truthy (SINK c) = true
           /\ exists n, In n registry /\ truthy (SINK n) = false /\ KEY n = k).
Proof.
  split; [apply uniq_NoDup|]. intros k.
  unfold dependencies. rewrite uniq_In, !in_app_iff.
  assert (Hh : In k (if truthy (HOIST c) then []
                     else map (fun c : Component => KEY c)
                            (filter (fun c : Component => truthy (HOIST c))
                               registry))
               <-> truthy (HOIST c) = false
                   /\ exists h, In h registry /\ truthy (HOIST h) = true
                                /\ KEY h = k).
  { destruct (truthy (HOIST c)); simpl.
    - split; [tauto | intros [H _]; discriminate].
    - rewrite in_map_iff. split.
      + intros (h & E & Hin). apply filter_In in Hin. split; [reflexivity|].
        exists h. tauto.
      + intros (_ & h & Hin & Ht & E). exists h. split; [assumption|].
        apply filter_In. tauto. }
  assert (Hs : In k (if truthy (SINK c)
                     then map (fun c : Component => KEY c)
                            (filter (fun c : Component =>
                                       negb (truthy (SINK c))) registry)
                     else [])
               <-> truthy (SINK c) = true
                   /\ exists n, In n registry /\ truthy (SINK n) = false
                                /\ KEY n = k).
  { destruct (truthy (SINK c)); simpl.
    - rewrite in_map_iff. split.
      + intros (n & E & Hin). apply filter_In in Hin. split; [reflexivity|].
        exists n. destruct Hin as [Hin Hn]. apply negb_true_iff in Hn. tauto.
      + intros (_ & n & Hin & Ht & E). exists n. split; [assumption|].
        apply filter_In. rewrite Ht. tauto.
    - split; [tauto | intros [H _]; discriminate]. }
  rewrite Hh, Hs. simpl. tauto.
Qed.

(** X3.  [Component.all] returns, whatever is registered: its loop ends
    within as many turns as there are registered components.  What it
    returns is a selection of the registry: every registered component
    at most once, and nothing else. *)
Theorem all_selects (registry : list Component) :
  exists order rest,
    all registry = Some order /\ Permutation (order ++ rest) registry.
Proof.
  destruct (all_total registry) as [order Ho].
  destruct (all_inv registry order Ho) as (ms & out & -> & HI).
  exists (map node out),
         (map node (filter (fun m => negb (no_dep m)) ms)).
  split; [assumption|].
  rewrite <- (inv_nodes _ _ _ _ HI), <- map_app. apply Permutation_map.
  pose proof (inv_perm _ _ _ _ HI) as Hp. simpl in Hp. rewrite Hp.
  apply filter_split_perm.
Qed.

(** X4.  Whether or not two registered components carry one key: a
    component of the order comes after, for every key of its dependency
    set (REQUIRES, WAIT_FOR, and the keys hoisting and sinking add), a
    component that carries that key. *)
Theorem order_follows_keys (registry order : list Component) (j : nat)
  (b : Component) (k : string) :
  all registry = Some order ->
  nth_error order j = Some b ->
  In k (dependencies registry b) ->
  exists i a, i < j /\ nth_error order i = Some a /\ KEY a = k.
Proof. apply all_after_keys. Qed.

Lemma order_follows_keys_witness :
  exists i a,
    i < 3 /\ nth_error [hoist_first; comp_n; comp_w; hoist_late] i = Some a
    /\ KEY a = "w".
Proof.
  apply (order_follows_keys hoists _ 3 hoist_late "w"); try reflexivity.
  simpl. tauto.
Defined.

(** X5.  When the keys the components wait for are all carried, and
    down a hierarchy ([rank] decreases from a component to some
    component that carries the key it waits for), the order holds every
    registered component, once. *)
Theorem order_complete (registry order : list Component)
  (rank : Component -> nat) :
  (forall c k, In c registry -> In k (dependencies registry c) ->
     exists a, In a registry /\ KEY a = k /\ rank a < rank c) ->
  all registry = Some order ->
  Permutation order registry.
Proof. intros H. now apply all_complete with (rank := rank). Qed.

Definition mixed_rank (c : Component) : nat :=
  if String.eqb (KEY c) "h" then 0
  else if String.eqb (KEY c) "damage" then 1
  else if String.eqb (KEY c) "weapon" then 2 else 3.

Lemma order_complete_witness :
  Permutation [hoisted; damage; weapon; sunk] mixed.
Proof.
  apply (order_complete mixed _ mixed_rank); [|reflexivity].
  intros c k [<-|[<-|[<-|[<-|[]]]]]; simpl;
    intros H; repeat destruct H as [<-|H]; try contradiction;
    first [ exists hoisted; simpl; split; [tauto | split; [reflexivity|]];
            unfold mixed_rank; simpl; lia
          | exists damage; simpl; split; [tauto | split; [reflexivity|]];
            unfold mixed_rank; simpl; lia
          | exists weapon; simpl; split; [tauto | split; [reflexivity|]];
            unfold mixed_rank; simpl; lia ].
Defined.

(** The loop of [all] when no element of [_list] waits for anything:
    it empties [no_edges] from its end. *)
Lemma release_idle (key : string) (ms ne : list Node) :
  (forall m, In m ms -> dep m = []) -> release key ms ne = (ms, ne).
Proof.
  intros H. rewrite release_spec. f_equal.
  - induction ms as [|m ms IH]; simpl; [reflexivity|].
    rewrite spliced_no_dep, IH; [reflexivity | |].
    + intros x Hx. apply H. now right.
    + unfold no_dep. rewrite (H m); [reflexivity | now left].
  - assert (E : freed key ms = []).
    { induction ms as [|m ms IH]; simpl; [reflexivity|].
      unfold no_dep at 1. rewrite (H m) by now left. simpl.
      apply IH. intros x Hx. apply H. now right. }
    rewrite E. apply app_nil_r.
Qed.

Lemma all_loop_idle (ms : list Node) :
  (forall m, In m ms -> dep m = []) ->
  forall fuel stack out,
    List.length stack <= fuel ->
    all_loop fuel ms stack out = Some (out ++ rev stack).
Proof.
  intros H. induction fuel as [|fuel IH]; intros stack out Hlen;
    destruct stack as [|n stack _] using rev_ind; simpl;
    try (now rewrite app_nil_r).
  - rewrite length_app in Hlen. simpl in Hlen. lia.
  - rewrite pop_snoc, (release_idle _ _ _ H), rev_app_distr. simpl.
    rewrite IH, <- app_assoc; [reflexivity|].
    rewrite length_app in Hlen. simpl in Hlen. lia.
Qed.

(** X6.  Components that name no key and are neither hoisted nor sunk
    come out in the reverse of the order they were registered in: the
    loop takes the last of [no_edges] first. *)
Theorem unconstrained_order_reversed (registry : list Component) :
  (forall c, In c registry ->
     named c = [] /\ truthy (HOIST c) = false /\ truthy (SINK c) = false) ->
  all registry = Some (rev registry).
Proof.
  intros H.
  assert (Hf : filter (fun c : Component => truthy (HOIST c)) registry = []).
  { clear - H. induction registry as [|c r IH]; simpl; [reflexivity|].
    destruct (H c (or_introl eq_refl)) as (_ & -> & _).
    apply IH. intros x Hx. apply H. now right. }
  assert (Hd : forall c, In c registry -> dependencies registry c = []).
  { intros c Hc. destruct (H c Hc) as (Hn & Hh & Hs).
    unfold named in Hn. apply app_eq_nil in Hn. destruct Hn as [Hr Hw].
    unfold dependencies. now rewrite Hr, Hw, Hh, Hs, Hf. }
  assert (Hi : forall m, In m (initial registry) -> dep m = []).
  { intros m Hm. unfold initial in Hm. apply in_map_iff in Hm.
    destruct Hm as (c & <- & Hc). now apply Hd. }
  assert (Hall : filter no_dep (initial registry) = initial registry).
  { revert Hi. generalize (initial registry). intros ms Hi.
    induction ms as [|m ms IH]; simpl; [reflexivity|].
    unfold no_dep at 1. rewrite (Hi m) by now left. simpl. f_equal.
    apply IH. intros x Hx. apply Hi. now right. }
  unfold all. rewrite Hall, (all_loop_idle _ Hi).
  - simpl. rewrite map_rev. unfold initial. rewrite map_map. simpl.
    now rewrite map_id.
  - unfold initial. now rewrite length_map.
Qed.

Lemma unconstrained_order_reversed_witness :
  all [damage; brief; comp_w] = Some [comp_w; brief; damage].
Proof.
  apply (unconstrained_order_reversed [damage; brief; comp_w]).
  intros c [<-|[<-|[<-|[]]]]; repeat split.
Defined.

(** X7.  A component marked both HOIST and SINK waits for every
    component that is not sunk, and every component that is not hoisted
    waits for it.  Registered, under distinct keys, with a component
    that is neither, it is never emitted, and neither is any component
    that is not hoisted. *)
Theorem hoisted_sink_blocks (registry order : list Component)
  (hs p : Component) :
  distinct_keys registry ->
  In hs registry -> truthy (HOIST hs) = true -> truthy (SINK hs) = true ->
  In p registry -> truthy (HOIST p) = false -> truthy (SINK p) = false ->
  all registry = Some order ->
  ~ In hs order /\ forall c, In c order -> truthy (HOIST c) = true.
Proof.
  intros Hd Hhs Hh Hs Hp Hph Hps Ho.
  set (S := fun k => exists c, In c registry /\ KEY c = k
                               /\ (c = hs \/ truthy (HOIST c) = false)).
  assert (Hav : forall c, In c order -> ~ S (KEY c)).
  { apply (all_avoids registry S order); [|assumption].
    intros x Hx (c & Hc & E & Hcase).
    assert (c = x) as -> by now apply (distinct_keys_eq registry).
    destruct Hcase as [->|Hxh].
    - exists (KEY p). split.
      + now apply dependencies_sink.
      + exists p. tauto.
    - exists (KEY hs). split.
      + now apply dependencies_hoist.
      + exists hs. tauto. }
  assert (Hreg : forall c, In c order -> In c registry).
  { intros c. now apply (all_registered registry order). }
  split.
  - intros Hin. apply (Hav hs Hin). exists hs. tauto.
  - intros c Hin. destruct (truthy (HOIST c)) eqn:E; [reflexivity|].
    exfalso. apply (Hav c Hin). exists c. split; [now apply Hreg|]. tauto.
Qed.

Definition both_ways : Component :=
  flagged "hs" None (Some true) (Some true) None.

Lemma hoisted_sink_blocks_witness :
  ~ In both_ways [hoisted]
  /\ forall c, In c [hoisted] -> truthy (HOIST c) = true.
Proof.
  apply (hoisted_sink_blocks [hoisted; both_ways; damage] _ both_ways damage);
    try reflexivity; try (simpl; tauto).
  repeat constructor; simpl; intuition discriminate.
Defined.

End OrderExtras.

(* ================================================================== *)
(** ** Further properties: the errors and their report *)

Module ErrorExtras.
Import JS JSFacts ObjFacts Schema Reporting Runs Domain.

(** The errors an argument of [error] stands for. *)
Definition items (err : ErrArg) : list string :=
  match err with One e => [e] | Many es => es end.

(** The number of errors in the lists of a map, in storage order. *)
Definition total (errors : ErrorMap) : nat :=
  List.length (List.concat (map snd errors)).

Lemma total_perm (e e' : ErrorMap) : Permutation e e' -> total e = total e'.
Proof.
  unfold total. induction 1 as [|x l l' _ IH|x y l|l l' l'' _ IH1 _ IH2];
    simpl; rewrite ?length_app in *; lia.
Qed.

Lemma errorCount_total (e : ErrorMap) : errorCount e = total e.
Proof. apply total_perm, entries_perm. Qed.

Lemma total_app (e e' : ErrorMap) : total (e ++ e') = total e + total e'.
Proof.
  unfold total. now rewrite map_app, concat_app, length_app.
Qed.

Lemma total_update (k : string) (old new : list string) (e : ErrorMap) :
  get k e = Some old ->
  total (update k new e) + List.length old = total e + List.length new.
Proof.
  unfold total. induction e as [|[k' v'] r IH]; simpl; [discriminate|].
  destruct (String.eqb k k'); simpl; rewrite ?length_app.
  - intros [= ->]. lia.
  - intros H. specialize (IH H). lia.
Qed.

Lemma error_get (key : string) (err : ErrArg) (e : ErrorMap)
  (k' : string) :
  get k' (error key err e)
  = if String.eqb k' key then Some (or_empty (get key e) ++ items err)
    else get k' e.
Proof.
  unfold error. fold (items err). rewrite get_set.
  destruct (String.eqb_spec k' key) as [->|Hne].
  - destruct (has key e) eqn:E; [reflexivity|].
    rewrite get_set, String.eqb_refl. apply has_false in E. now rewrite E.
  - destruct (has key e); [reflexivity|]. rewrite get_set.
    apply String.eqb_neq in Hne. now rewrite Hne.
Qed.

Lemma error_total (key : string) (err : ErrArg) (e : ErrorMap) :
  total (error key err e) = total e + List.length (items err).
Proof.
  unfold error. fold (items err).
  destruct (has key e) eqn:E.
  - apply has_get in E. destruct E as [old E]. rewrite E. simpl.
    unfold set. rewrite (proj2 (has_get key e)) by eauto.
    pose proof (total_update key old (old ++ items err) e E) as H.
    rewrite length_app in H. lia.
  - assert (Hg : get key (set key [] e) = Some []).
    { now rewrite get_set, String.eqb_refl. }
    rewrite Hg. simpl. unfold set at 1.
    rewrite (proj2 (has_get key (set key [] e))) by eauto.
    pose proof (total_update key [] (items err) _ Hg) as H.
    assert (Ht : total (set key [] e) = total e).
    { unfold set. rewrite E, total_app. unfold total at 2. simpl. lia. }
    simpl in H. lia.
Qed.

(** X8.  For a key that names no member of [Object.prototype],
    [error(key, err)] adds the errors of [err], one or an array, at the
    end of the list under [key], which it creates when there is none,
    and leaves the lists under the other keys as they are; the number of
    errors [reportErrors] counts grows by the number of errors added,
    which is none for the empty array. *)
Theorem error_appends (key : string) (err : ErrArg) (e : ErrorMap) :
  inherited key = false ->
  (forall k',
     get k' (error key err e)
     = if String.eqb k' key then Some (or_empty (get key e) ++ items err)
       else get k' e)
  /\ errorCount (error key err e) = errorCount e + List.length (items err).
Proof.
  intros _. split; [apply error_get|]. rewrite !errorCount_total.
  apply error_total.
Qed.

(** Two errors added under "sword", where one is already. *)
Lemma error_appends_witness :
  get "sword" (error "sword" (Many ["bent"; "blunt"]) [("sword", ["rusty"])])
  = Some ["rusty"; "bent"; "blunt"]
  /\ errorCount
       (error "sword" (Many ["bent"; "blunt"]) [("sword", ["rusty"])])
     = 1 + 2.
Proof.
  destruct (error_appends "sword" (Many ["bent"; "blunt"])
              [("sword", ["rusty"])] eq_refl) as [H1 H2].
  split; [exact (H1 "sword") | exact H2].
Defined.

Lemma report_total (log : Log) (e : ErrorMap) :
  total (report log e) = total e + List.length log.
Proof.
  revert e. induction log as [|[k m] log IH]; intros e; simpl; [lia|].
  rewrite IH, error_total. simpl. lia.
Qed.

End ErrorExtras.

(* ================================================================== *)
(** ** Further properties: what a run keeps and what it drops *)

Module ResolverExtras.
Import JS JSFacts ObjFacts Comp Order Schema Reporting Resolution Runs.
Import Rules Passes ErrorExtras Examples.

Lemma index_length (ent : list EntityData) (d : EntityMap) :
  List.length (index d ent) + List.length (duplicates d ent)
  = List.length d + List.length ent.
Proof.
  revert d. induction ent as [|e ent IH]; intros d; simpl; [lia|].
  destruct (get (toString (field "id" e)) d) eqn:E; simpl.
  - specialize (IH d). lia.
  - specialize (IH (set (toString (field "id" e)) e d)).
    unfold set in IH at 3. apply has_false in E.
    rewrite E, length_app in IH. simpl in IH. lia.
Qed.

Lemma seed_loop_length (l : list string) (o : Manifest) :
  NoDup l -> (forall k, In k l -> has k o = false) ->
  List.length (fold_left (fun out key => set key [] out) l o)
  = List.length o + List.length l.
Proof.
  unfold Manifest, Entity, Obj in *.
  revert o. induction l as [|k l IH]; intros o Hnd Hno; simpl;
    [now rewrite Nat.add_0_r|].
  inversion Hnd as [|? ? Hk Hl]; subst. rewrite IH; [| assumption |].
  - unfold set. rewrite (Hno k (or_introl eq_refl)), length_app. simpl.
    now rewrite <- Nat.add_assoc.
  - intros k' Hk'. unfold has. rewrite get_set.
    destruct (String.eqb_spec k' k) as [->|Hne]; [contradiction|].
    apply (Hno k'). now right.
Qed.

Lemma seed_length (d : EntityMap) :
  NoDup (map fst d) -> List.length (seed d) = List.length d.
Proof.
  intros H. unfold seed. rewrite seed_loop_length.
  - unfold keys. rewrite length_map. simpl.
    apply Permutation_length, entries_perm.
  - now apply entries_NoDup.
  - reflexivity.
Qed.

Lemma delete_length {V : Type} (k : string) (o : Obj V) :
  NoDup (map fst o) -> has k o = true ->
  List.length (delete k o) + 1 = List.length o.
Proof.
  unfold delete. induction o as [|[k' v'] r IH]; simpl; [discriminate|].
  intros Hnd Hh. inversion Hnd as [|? ? Hk Hr]; subst.
  destruct (String.eqb_spec k k') as [->|Hne]; simpl.
  - assert (E : filter (fun kv : string * V => negb (String.eqb k' (fst kv))) r
                = r).
    { clear - Hk. induction r as [|[k0 v0] r IH]; simpl; [reflexivity|].
      destruct (String.eqb_spec k' k0) as [->|Hne]; simpl.
      - exfalso. apply Hk. now left.
      - f_equal. apply IH. intros H. apply Hk. now right. }
    rewrite E. lia.
  - rewrite <- IH; [lia | assumption |].
    unfold has in Hh |- *. simpl in Hh.
    apply String.eqb_neq in Hne. now rewrite Hne in Hh.
Qed.

Lemma update_length {V : Type} (k : string) (v : V) (o : Obj V) :
  List.length (update k v o) = List.length o.
Proof.
  rewrite <- (length_map fst), update_keys. apply length_map.
Qed.

(** X9.  On an empty sequence of records [resolveEntities] returns the
    empty manifest and leaves the errors as they were, whatever is
    registered. *)
Theorem nothing_from_nothing (registry : list Component) (e0 : ErrorMap) :
  resolveEntities registry e0 [] = Some ([], e0).
Proof.
  destruct (all_total registry) as [order Ho].
  pose proof (run_start registry order e0 [] Ho) as Hrun.
  pose proof (run_rule registry order e0 [] _
                (fun _ s => out s = [] /\ errors s = e0) Ho Hrun) as H.
  unfold resolveEntities. rewrite Hrun.
  destruct H as [H1 H2]; [| | split; reflexivity | now rewrite H1, H2].
  - intros done comp rest s _ _ Hs. exact Hs.
  - intros done comp rest s k v _ _ [Hf _] _ [Hs _].
    rewrite Hs in Hf. discriminate.
Qed.

(** The calls that threw are as many as the entities removed. *)
Lemma run_tally (registry order : list Component) (e0 : ErrorMap)
  (ent : list EntityData) (st : Run) :
  all registry = Some order ->
  resolveEntities_run registry e0 ent = Some st ->
  List.length (out st) + List.length (thrown (visited st))
  = List.length (index [] ent).
Proof.
  intros Ho Hrun.
  apply (run_rule registry order e0 ent st
           (fun _ s => List.length (out s) + List.length (thrown (visited s))
                       = List.length (index [] ent)) Ho Hrun).
  - intros done comp rest s _ _ Hs. exact Hs.
  - intros done comp rest s k v _ HS [Hf _] _ Hs.
    destruct (visit_spec order comp s k v)
      as (ev & p & Hv & _ & _ & _ & _ & _ & Hout).
    rewrite Hv, thrown_app, length_app. unfold thrown at 2, flat_map.
    rewrite app_nil_r.
    destruct Hout as [parent' _ _ E _ | msg _ _ E _]; rewrite E; simpl.
    + rewrite update_length. lia.
    + pose proof (delete_length k (out s)
                    (wf_out _ _ (sound_wf _ _ _ HS)) Hf). lia.
  - simpl. rewrite Nat.add_0_r. apply seed_length, index_NoDup. constructor.
Qed.

(** X10.  The entities of the final manifest are those of the ids of the
    records on which no call of [Component.resolve] threw; and every
    record of the input has, under its id, an entity in the final
    manifest or an error in the error map. *)
Theorem survivors (registry : list Component) (e0 : ErrorMap)
  (ent : list EntityData) (st : Run) :
  resolveEntities_run registry e0 ent = Some st ->
  (forall k,
     has k (out st) = true <->
     (exists e, In e ent /\ toString (field "id" e) = k)
     /\ forall ev, In ev (visited st) -> ev_id ev = k -> ev_thrown ev = None)
  /\ (forall e, In e ent ->
        has (toString (field "id" e)) (out st) = true
        \/ exists es msg,
             get (toString (field "id" e)) (errors st) = Some es
             /\ In msg es).
Proof.
  intros Hrun.
  destruct (run_Sound registry e0 ent) as (order & st' & Ho & Hr & HS & He).
  rewrite Hrun in Hr. injection Hr as <-.
  pose proof (run_survivors registry order e0 ent st Ho Hrun) as Hsurv.
  assert (Hrec : forall k, has k (index [] ent) = true <->
                   exists e, In e ent /\ toString (field "id" e) = k).
  { intros k. rewrite index_has. split; [|tauto].
    intros [H|H]; [discriminate | exact H]. }
  split.
  - intros k. split.
    + intros Hk. split.
      * apply Hrec. apply (wf_data _ _ (sound_wf _ _ _ HS)) in Hk.
        apply has_get in Hk. destruct Hk as [r Hk].
        apply (wf_d _ _ (sound_wf _ _ _ HS)) in Hk. apply has_get. eauto.
      * intros ev Hin <-. destruct (ev_thrown ev) as [msg|] eqn:E;
          [|reflexivity].
        destruct (sound_gone _ _ _ HS ev Hin) as [_ Hg]; congruence.
    + intros [Hk Hno]. apply Hrec in Hk.
      destruct (Hsurv k Hk) as [H|(ev & Hin & E & Ht)]; [assumption|].
      now apply Hno in Hin.
  - intros e Hin.
    destruct (Hsurv (toString (field "id" e))) as [H|(ev & Hev & E & Ht)].
    + apply Hrec. eauto.
    + now left.
    + right. destruct (thrown_holds _ ev Hev Ht) as [msg Hm].
      rewrite E in Hm.
      destruct (report_In (duplicates [] ent ++ thrown (visited st)) e0
                  (toString (field "id" e)) msg) as (es & Hg & Hes).
      { apply in_or_app. now right. }
      exists es, msg. now rewrite He.
Qed.

(** A run in which an entity is removed and a record is a duplicate:
    [weapon] requires "damage", which the sword lacks, and two records
    have the id "a". *)
Definition smithy : list Component := [weapon; damage].

Definition smithy_records : list EntityData := [sword; first_a; second_a].

Definition smithy_end : Run :=
  Eval vm_compute in
    match resolveEntities_run smithy [] smithy_records with
    | Some st => st
    | None => start [] []
    end.

Lemma survivors_witness :
  has "a" (out smithy_end) = true
  /\ exists es msg, get "sword" (errors smithy_end) = Some es /\ In msg es.
Proof.
  destruct (survivors smithy [] smithy_records smithy_end eq_refl)
    as [H1 H2].
  split.
  - apply H1. split; [exists first_a; simpl; tauto|].
    intros ev Hin E. simpl in Hin.
    repeat destruct Hin as [<-|Hin]; try discriminate E; try reflexivity.
    contradiction.
  - destruct (H2 sword) as [H|H]; [simpl; tauto | discriminate H | exact H].
Defined.

(** X11.  No record is lost without an error: when [resolveEntities]
    returns, the errors that [reportErrors] counts and the entities of
    the manifest are together as many as the errors counted before the
    run and the records of the input. *)
Theorem records_accounted (registry : list Component) (e0 : ErrorMap)
  (ent : list EntityData) (m : Manifest) (e : ErrorMap) :
  resolveEntities registry e0 ent = Some (m, e) ->
  errorCount e + List.length m = errorCount e0 + List.length ent.
Proof.
  unfold resolveEntities.
  destruct (run_Sound registry e0 ent) as (order & st & Ho & Hr & _ & He).
  rewrite Hr. intros [= <- <-].
  pose proof (run_tally registry order e0 ent st Ho Hr) as Ht.
  pose proof (index_length ent []) as Hi.
  rewrite !errorCount_total, He, report_total, length_app.
  simpl in Hi. unfold Manifest, EntityMap, Entity, EntityData, Obj in *.
  lia.
Qed.

Lemma records_accounted_witness :
  errorCount (errors smithy_end) + List.length (out smithy_end) = 0 + 3.
Proof.
  apply (records_accounted smithy [] smithy_records). reflexivity.
Defined.

(** X12.  After a run that started with the errors cleared,
    [reportErrors] says nothing exactly when every record of the input
    has its entity in the manifest; otherwise it puts out the dump of
    the errors once, or the error of the write that failed, and then the
    line that counts the records that have no entity. *)
Theorem report_after_run (registry : list Component)
  (ent : list EntityData) (m : Manifest) (e : ErrorMap)
  (dump : ErrorMap -> string) (errorLogs : string)
  (writeFileSync : string -> string -> Result unit) :
  resolveEntities registry clearErrors ent = Some (m, e) ->
  (List.length m = List.length ent ->
     reportErrors dump errorLogs writeFileSync e = [])
  /\ (List.length m <> List.length ent ->
        exists o,
          reportErrors dump errorLogs writeFileSync e
          = [o; ConsoleError
                  ("Error count: "
                     ++ NilZero.string_of_uint
                          (Nat.to_uint (List.length ent - List.length m)))]).
Proof.
  intros Hrun. pose proof (records_accounted _ _ _ _ _ Hrun) as H.
  change (errorCount clearErrors) with 0 in H. simpl in H.
  unfold reportErrors. split; intros Hm.
  - replace (errorCount e) with 0 by lia. reflexivity.
  - replace (List.length ent - List.length m) with (errorCount e) by lia.
    destruct (Nat.ltb_spec 0 (errorCount e)) as [_|Hz]; [|lia].
    destruct (String.eqb errorLogs "stderr");
      [eexists; reflexivity|].
    destruct (writeFileSync errorLogs (dump e)); eexists; reflexivity.
Qed.

Lemma report_after_run_witness :
  exists o,
    reportErrors (fun _ => "dump") "stderr" (fun _ _ => Ok tt)
      (errors smithy_end)
    = [o; ConsoleError "Error count: 2"].
Proof.
  destruct (report_after_run smithy smithy_records
              (out smithy_end) (errors smithy_end)
              (fun _ => "dump") "stderr" (fun _ _ => Ok tt) eq_refl)
    as [_ H].
  apply H. simpl. discriminate.
Defined.

(** [damage] and [weapon] as components whose hooks could throw any
    value, in the order in which [Component.all] returns them. *)
Definition anvil : list Raw.Component :=
  [Raw.Make (desc damage) None None None None;
   Raw.Make (desc weapon) None None None None].

Definition anvil_end : Run :=
  Eval vm_compute in
    match Raw.resolveEntities_run anvil [] smithy_records with
    | Raw.Ran st => st
    | Raw.Escaped st _ => st
    end.

(** X16.  With hooks that can throw any value: in a run that no
    exception leaves, whenever a call of [Component.resolve] has thrown
    (a value that has a [toString], which gave [msg]), the error is
    recorded under the id of the entity in the error map; as the [catch]
    leaves them, the manifest [out] and the working map [d] have no
    entry for the id, and no passed-set holds it; no later call of the
    run is on that entity; and the final manifest has no entry for it. *)
Theorem text_throw_evicts (comps : list Raw.Component) (e0 : ErrorMap)
  (ent : list EntityData) (st : Run) (i : nat) (ev : Event) (msg : string) :
  Raw.resolveEntities_run comps e0 ent = Raw.Ran st ->
  nth_error (visited st) i = Some ev ->
  ev_thrown ev = Some msg ->
  (exists es, get (ev_id ev) (errors st) = Some es /\ In msg es)
  /\ has (ev_id ev) (out (ev_after ev)) = false
  /\ has (ev_id ev) (d (ev_after ev)) = false
  /\ (forall key ids,
        get key (passed (ev_after ev)) = Some ids -> ~ In (ev_id ev) ids)
  /\ (forall j ev', i < j -> nth_error (visited st) j = Some ev' ->
                    ev_id ev' <> ev_id ev)
  /\ has (ev_id ev) (out st) = false.
Proof.
  intros Hrun. apply RawFacts.run_erase in Hrun. subst st.
  apply thrown_evicted.
Qed.

(** The third call of the run of [anvil], of [weapon] on the sword. *)
Lemma text_throw_evicts_witness :
  (exists es,
     get "sword" (errors anvil_end) = Some es
     /\ In (requirement_error weapon "sword" (Missing "damage")) es)
  /\ has "sword" (out anvil_end) = false.
Proof.
  destruct (text_throw_evicts anvil [] smithy_records anvil_end 2
              (nth 2 (visited anvil_end)
                 {| ev_comp := weapon; ev_id := EmptyString;
                    ev_thrown := None; ev_after := locals anvil_end |})
              (requirement_error weapon "sword" (Missing "damage"))
              eq_refl eq_refl eq_refl)
    as (H1 & _ & _ & _ & _ & H6).
  split; [exact H1 | exact H6].
Defined.

End ResolverExtras.

(* ================================================================== *)
(** ** Further properties: what the components do to the entities *)

Module ContractExtras.
Import JS JSFacts ObjFacts Comp Order Schema Resolution Runs Domain.
Import Rules Passes ResolverExtras Examples.

Lemma index_get_In (ent : list EntityData) (d : EntityMap) (k : string)
  (r : EntityData) :
  get k (index d ent) = Some r ->
  get k d = Some r \/ (In r ent /\ toString (field "id" r) = k).
Proof.
  revert d. induction ent as [|e ent IH]; intros d; simpl; [tauto|].
  destruct (get (toString (field "id" e)) d) eqn:E; intros H;
    apply IH in H.
  - tauto.
  - rewrite get_set in H.
    destruct (String.eqb_spec k (toString (field "id" e))) as [->|Hne].
    + destruct H as [[= <-]|H]; tauto.
    + tauto.
Qed.

(** X13.  With components that have no hooks, whose keys name no member
    of [Object.prototype], and records on which objects act as
    dictionaries, the engine invents nothing: whatever an entity of the
    final manifest holds at a key is what a record of the input with the
    entity's id holds at that key, and the key is the KEY of a
    registered component. *)
Theorem facets_from_records (registry : list Component) (e0 : ErrorMap)
  (ent : list EntityData) (st : Run) :
  (forall c, In c registry -> hookless c /\ inherited (KEY c) = false) ->
  (forall r, In r ent -> ordinary r = true) ->
  resolveEntities_run registry e0 ent = Some st ->
  forall k e key v,
    get k (out st) = Some e -> get key e = Some v ->
    (exists c, In c registry /\ KEY c = key)
    /\ exists r, In r ent /\ toString (field "id" r) = k
                 /\ get key r = Some v.
Proof.
  intros Hplain _ Hrun k e key v Hk Hv.
  destruct (all_total registry) as [order Ho].
  assert (Hreg : forall c, In c order -> In c registry).
  { intros c. now apply (all_registered registry order). }
  destruct (hookless_only registry order e0 ent st Ho Hrun) with
    (k := k) (key := key) (e := e) (v := v)
    as ((c & Hc & E) & _ & r & Hr & Hkv); try assumption.
  { intros c Hc. now apply Hplain, Hreg. }
  split; [exists c; auto|].
  apply index_get_In in Hr. destruct Hr as [Hr|Hr]; [discriminate|].
  exists r. tauto.
Qed.

(** A run of components without hooks on a record with two facets, one
    of which no component carries. *)
Definition shelf_end : Run :=
  Eval vm_compute in
    match resolveEntities_run [brief] [] [record_xa] with
    | Some st => st
    | None => start [] []
    end.

Lemma facets_from_records_witness :
  (exists c, In c [brief] /\ KEY c = "brief")
  /\ exists r, In r [record_xa] /\ toString (field "id" r) = "x"
               /\ get "brief" r = Some (VStr "short text").
Proof.
  apply (facets_from_records [brief] [] [record_xa] shelf_end)
    with (e := [("brief", VStr "short text")]); try reflexivity.
  - intros c [<-|[]]. repeat split.
  - intros r [<-|[]]. reflexivity.
Defined.

(** X14.  A component whose trigger answers [false] for an entity leaves
    the turn without a trace in the locals and in the errors: the entity
    is put back as it was, no passed-set changes, nothing is reported. *)
Theorem untriggered_untouched (components : list Component)
  (comp : Component) (st : Run) (k : string) (v : Entity) :
  or_default (trigger comp) (default_trigger comp)
    (context components st k v) = Ok false ->
  get k (out st) = Some v ->
  locals (visit components comp st (k, v)) = locals st
  /\ errors (visit components comp st (k, v)) = errors st.
Proof.
  intros Ht Hk. unfold visit, resolve, bind, call. rewrite Ht.
  cbn. rewrite (update_same _ _ _ Hk).
  now destruct st as [[] ? ?].
Qed.

Lemma untriggered_untouched_witness :
  locals (visit [damage] damage shelf_end ("x", [("brief", VStr "short text")]))
  = locals shelf_end
  /\ errors (visit [damage] damage shelf_end
               ("x", [("brief", VStr "short text")]))
     = errors shelf_end.
Proof.
  apply (untriggered_untouched [damage] damage shelf_end "x"); reflexivity.
Defined.

(** A call of [resolve] that returns has left the passed-sets alone, or
    has pushed the id and found it in the passed-set of every
    requirement. *)
Lemma resolve_checked (c : Component) (ctx : Context.t) :
  match resolve c ctx with
  | (ctx', Ok _) =>
      Context.passed ctx' = Context.passed ctx
      \/ exists ids,
           get (KEY c) (Context.passed ctx) = Some ids
           /\ Context.passed ctx'
              = update (KEY c) (ids ++ [Context.id ctx]) (Context.passed ctx)
           /\ forall rs, REQUIRES c = Some rs ->
                unmet rs (Context.passed ctx') (Context.id ctx) = None
  | (_, Throw _) => True
  end.
Proof.
  run_resolve; auto; right; eexists; (split; [reflexivity|]);
    (split; [reflexivity|]); intros rs [= <-]; simpl in *; assumption.
Qed.

Lemma unmet_None (rs : list string) (p : PassedMap) (id r : string) :
  unmet rs p id = None -> In r rs ->
  exists ids, get r p = Some ids /\ In id ids.
Proof.
  induction rs as [|r0 rs IH]; simpl; [tauto|].
  destruct (get r0 p) as [ids|] eqn:E; [|discriminate].
  destruct (includes ids id) eqn:Ei; [|discriminate].
  intros H [<-|Hr]; [|auto].
  exists ids. split; [assumption | now apply includes_In].
Qed.

(** In the passed-sets [p], the entity [id] is in the passed-set of
    every requirement of each component of [cs] whose passed-set has
    it. *)
Definition met (cs : list Component) (p : PassedMap) (id : string) : Prop :=
  forall c rs ids r,
    In c cs -> REQUIRES c = Some rs ->
    get (KEY c) p = Some ids -> In id ids -> In r rs ->
    exists ids', get r p = Some ids' /\ In id ids'.

Lemma met_push (cs : list Component) (p : PassedMap) (key id k : string)
  (ids0 : list string) :
  get key p = Some ids0 ->
  met cs p id ->
  (id = k -> forall c rs r, In c cs -> KEY c = key ->
     REQUIRES c = Some rs -> In r rs ->
     exists ids', get r (update key (ids0 ++ [k]) p) = Some ids'
                  /\ In id ids') ->
  met cs (update key (ids0 ++ [k]) p) id.
Proof.
  intros Hg Hm Hk c rs ids r Hc Hrs Hids Hin Hr.
  assert (Hup : forall ids', get r p = Some ids' -> In id ids' ->
            exists ids2, get r (update key (ids0 ++ [k]) p) = Some ids2
                         /\ In id ids2).
  { intros ids' Hg' Hin'. rewrite get_update.
    destruct (String.eqb_spec r key) as [->|Hne]; [|eauto].
    rewrite (proj2 (has_get key p)) by eauto.
    exists (ids0 ++ [k]). split; [reflexivity|].
    apply in_or_app. left. congruence. }
  rewrite get_update in Hids.
  destruct (String.eqb_spec (KEY c) key) as [E|Hne].
  - rewrite (proj2 (has_get key p)) in Hids by eauto.
    injection Hids as <-. apply in_app_or in Hin.
    destruct Hin as [Hin|[<-|[]]].
    + rewrite <- E in Hg.
      destruct (Hm c rs ids0 r Hc Hrs Hg Hin Hr) as (ids' & Hg' & Hin').
      eauto.
    + now apply (Hk eq_refl c rs r).
  - destruct (Hm c rs ids r Hc Hrs Hids Hin Hr) as (ids' & Hg' & Hin').
    eauto.
Qed.

Lemma met_pruned (cs : list Component) (p : PassedMap) (id k : string) :
  (forall key ids, get key p = Some ids -> NoDup ids) ->
  (id <> k -> met cs p id) ->
  met cs (pruned k p) id.
Proof.
  intros Hnd Hm c rs ids r Hc Hrs Hids Hin Hr.
  rewrite get_pruned in Hids.
  destruct (get (KEY c) p) as [ids1|] eqn:E1; [|discriminate].
  injection Hids as <-.
  assert (Hne : id <> k).
  { intros ->. now apply (remove_first_NoDup ids1 k (Hnd _ _ E1)). }
  apply remove_first_incl in Hin.
  destruct (Hm Hne c rs ids1 r Hc Hrs E1 Hin Hr) as (ids' & Hg' & Hin').
  exists (remove_first k ids'). rewrite get_pruned, Hg'.
  split; [reflexivity | now apply remove_first_keeps].
Qed.

(** The keys a component of the order depends on are not the key of a
    component placed after it, when no two components share a key. *)
Lemma earlier_keys (registry order done rest : list Component)
  (comp c : Component) (r : string) :
  distinct_keys registry ->
  all registry = Some order ->
  order = done ++ comp :: rest ->
  In c done ->
  (r = KEY c \/ In r (dependencies registry c)) ->
  r <> KEY comp.
Proof.
  intros Hd Ho Hord Hc Hr E.
  pose proof (all_NoDup registry order Ho Hd) as Hnd.
  destruct (In_nth_error _ _ Hc) as [j Hj].
  assert (Hlt : j < List.length done).
  { apply nth_error_Some. congruence. }
  assert (Hj' : nth_error order j = Some c).
  { rewrite Hord, nth_error_app1; assumption. }
  assert (Hcomp : nth_error order (List.length done) = Some comp).
  { rewrite Hord, nth_error_app2, Nat.sub_diag by lia. reflexivity. }
  assert (Hi : exists i a, i <= j /\ nth_error order i = Some a
                           /\ KEY a = r).
  { destruct Hr as [->|Hr]; [exists j, c; auto|].
    destruct (all_after_keys registry order j c r Ho Hj' Hr)
      as (i & a & Hi & Ha & Hk).
    exists i, a. split; [lia | auto]. }
  destruct Hi as (i & a & Hi & Ha & Hk).
  assert (i = List.length done); [|lia].
  apply (proj1 (NoDup_nth_error _) Hnd).
  - rewrite length_map. apply nth_error_Some. congruence.
  - rewrite !nth_error_map, Ha, Hcomp. simpl. congruence.
Qed.

(** X15.  When no two registered components share a key, the passed-sets
    a run ends with are closed under the requirements: an entity in the
    passed-set of a component of the order is in the passed-set of every
    key the component requires. *)
Theorem passed_sets_closed (registry order : list Component)
  (e0 : ErrorMap) (ent : list EntityData) (st : Run) :
  distinct_keys registry ->
  all registry = Some order ->
  resolveEntities_run registry e0 ent = Some st ->
  forall id, met order (passed st) id.
Proof.
  intros Hd Ho Hrun.
  apply (run_rule registry order e0 ent st
           (fun done s => forall id, met done (passed s) id) Ho Hrun).
  - intros done comp rest s Hord _ Hs id c rs ids r Hc Hrs Hids Hin Hr.
    simpl in Hids. rewrite get_set in Hids.
    apply in_app_or in Hc. destruct Hc as [Hc|[<-|[]]].
    + assert (H1 : KEY c <> KEY comp).
      { apply (earlier_keys registry order done rest comp c); auto. }
      assert (H2 : r <> KEY comp).
      { apply (earlier_keys registry order done rest comp c); auto.
        right. apply dependencies_named. unfold named. rewrite Hrs.
        apply in_or_app. now left. }
      apply String.eqb_neq in H1, H2. rewrite H1 in Hids.
      simpl. rewrite get_set, H2. now apply (Hs id c rs ids r).
    + rewrite String.eqb_refl in Hids. injection Hids as <-.
      destruct Hin.
  - intros done comp rest s k v Hord HS Hf Hcur Hs id.
    assert (Hin : In comp order).
    { rewrite Hord. apply in_or_app. right. now left. }
    assert (Hsub : forall c, In c (done ++ [comp]) -> In c order).
    { intros c Hc. rewrite Hord. apply in_app_or in Hc.
      apply in_or_app. destruct Hc as [Hc|[<-|[]]]; [now left|].
      right. now left. }
    pose proof (all_NoDup registry order Ho Hd) as Hnd.
    pose proof (resolve_checked comp (context order s k v)) as Hres.
    pose proof (resolve_effect comp (context order s k v)) as [Hid Hp].
    pose proof (pushed_NoDup order (index [] ent) comp s k v _ (sound_wf _ _ _ HS) Hf Hp)
      as Hnd'.
    unfold visit.
    destruct (resolve comp (context order s k v)) as [ctx' [[]|err]];
      simpl in *.
    + destruct Hres as [->|(ids0 & Hg & -> & Hchk)]; [apply Hs|].
      apply met_push; [assumption | apply Hs|].
      intros -> c rs r Hc E Hrs Hr.
      assert (c = comp) as ->.
      { apply (distinct_keys_eq order); auto. }
      apply (unmet_None rs); auto.
    + rewrite Hid. apply met_pruned; [assumption|]. intros Hne.
      destruct Hp as [->|(ids0 & Hg & ->)]; [apply Hs|].
      apply met_push; [assumption | apply Hs|].
      intros E. now destruct Hne.
  - intros id c rs ids r []. 
Qed.

(** A run in which one record passes [weapon] and its requirement, one
    is evicted for the lack of it, and one passes [damage] alone. *)
Definition forge_records : list EntityData :=
  [ [("id", VStr "axe"); ("damage", VNum 2); ("weapon", VStr "cleaving")];
    sword; first_a ].

Definition forge_end : Run :=
  Eval vm_compute in
    match resolveEntities_run smithy [] forge_records with
    | Some st => st
    | None => start [] []
    end.

Lemma passed_sets_closed_witness :
  exists ids',
    get "damage" (passed forge_end) = Some ids' /\ In "axe" ids'.
Proof.
  apply (passed_sets_closed smithy [damage; weapon] [] forge_records
           forge_end) with (c := weapon) (rs := ["damage"]) (ids := ["axe"]);
    try reflexivity; try (simpl; tauto).
  unfold distinct_keys. simpl.
  repeat constructor; simpl; intuition congruence.
Defined.

End ContractExtras.
